(** * Sudoku-Solver: the constraint checker, the selectors, the validator and
      the backtracking search of [src/main.py], embedded in Rocq.

    - A board, Python's [List[List[int]]], is a [list (list Z)].  The search
      works on the private copy that [measure_performance] makes, row by
      row, so no two rows are the same object and the board is passed by
      value from call to call.
    - An index is a [nat]: every index the program computes comes from a
      [range] over non-negative bounds, so Python's negative indexing never
      comes into play.  An index past the end raises [IndexError].
    - A call returns, raises, or runs out of fuel ([result]); the fuel only
      bounds the depth of the recursion of the two solvers.
    - The fields [recursive_calls] and [time_limit_exceeded] of the solver
      are threaded through the search ([telemetry]); the test
      [time.time() - self.start_time > self.timeout] is an oracle over the
      number of times the clock has been read.
    - Printing, sleeping ([step_by_step]) and the elapsed time that
      [measure_performance] returns are left out. *)

From Stdlib Require Import ZArith Lia Sorted.
From stdpp Require Import base list sorting.

Local Open Scope Z_scope.
Local Open Scope nat_scope.

(** ** Results and exceptions *)

Inductive exn : Set := IndexError | ZeroDivisionError | TypeError.

(** What a call does: it returns, it raises, or the model ran out of fuel. *)
Inductive result (A : Type) : Type :=
| Ret (a : A)
| Raise (e : exn)
| OutOfFuel.

Arguments Ret {A} a.
Arguments Raise {A} e.
Arguments OutOfFuel {A}.

Definition rbind {A B} (m : result A) (k : A -> result B) : result B :=
  match m with
  | Ret a => k a
  | Raise e => Raise e
  | OutOfFuel => OutOfFuel
  end.

Notation "'let*' x ':=' m 'in' k" := (rbind m (fun x => k))
  (at level 10, x pattern, m at level 100, k at level 200).

(** ** Python loops with an early [return] *)

(** The state of a loop after one iteration: go on with the loop variables
    [s], or leave the function returning [r]. *)
Inductive ctl (S R : Type) : Type :=
| Next (s : S)
| Break (r : R).

Arguments Next {S R} s.
Arguments Break {S R} r.

(** [for x in xs: body], the loop variables threaded through. *)
Fixpoint for_loop {A S R} (xs : list A) (st : S)
    (body : A -> S -> result (ctl S R)) : result (ctl S R) :=
  match xs with
  | [] => Ret (Next st)
  | x :: xs' =>
      let* c := body x st in
      match c with
      | Next st' => for_loop xs' st' body
      | Break r => Ret (Break r)
      end
  end.

(** [for x in xs: if cond(x): return False], then fall through: the result is
    [false] when some iteration left, [true] when the loop ran to its end. *)
Fixpoint for_none {A} (xs : list A) (cond : A -> result bool) : result bool :=
  match xs with
  | [] => Ret true
  | x :: xs' =>
      let* b := cond x in
      if b then Ret false else for_none xs' cond
  end.

(** [for x in xs: if ...: return v], then fall through with [None]. *)
Fixpoint for_first {A B} (xs : list A) (body : A -> result (option B))
    : result (option B) :=
  match xs with
  | [] => Ret None
  | x :: xs' =>
      let* o := body x in
      match o with
      | Some v => Ret (Some v)
      | None => for_first xs' body
      end
  end.

(** ** The board *)

Abbreviation grid := (list (list Z)).

(** [board[i][j]]; out of range is an [IndexError]. *)
Definition get_cell (board : grid) (i j : nat) : result Z :=
  match board !! i with
  | None => Raise IndexError
  | Some row =>
      match row !! j with
      | None => Raise IndexError
      | Some v => Ret v
      end
  end.

(** [board[i][j] = v]; out of range is an [IndexError]. *)
Definition set_cell (board : grid) (i j : nat) (v : Z) : result grid :=
  match board !! i with
  | None => Raise IndexError
  | Some row =>
      if decide (j < length row)
      then Ret (<[i := <[j := v]> row]> board)
      else Raise IndexError
  end.

(** ** The solver object *)

(** The two fields of [SudokuSolver] that the checker reads. *)
Record solver : Set := Solver { size : nat; subgrid_size : nat }.

(** The sizes for which the model of the constructor gives an answer. *)
Definition exact_root_bound : Z := (2 ^ 32)%Z.

(** [SudokuSolver.__init__]: [self.size = size],
    [self.subgrid_size = int(size ** 0.5)].  For a negative [size] Python's
    [**] gives a complex number and [int] raises [TypeError].  Otherwise
    [size ** 0.5] is a binary64 power, which [int] truncates.  For
    0 <= size < 2^32 the size is a float exactly, its root is below 2^16,
    and a root that is not an integer is more than 2^-17 away from the next
    integer, a million times the spacing 2^-37 of the floats there: the
    truncated power is the integer square root.  For larger sizes the
    rounding of the power decides (size 4503599761588224 gives 67108865,
    whose square is above the size, and a size beyond the floats raises
    [OverflowError]): there the model gives no answer, [None]. *)
Definition init (n : Z) : option (result solver) :=
  if (n <? 0)%Z then Some (Raise TypeError)
  else if (n <? exact_root_bound)%Z
  then Some (Ret (Solver (Z.to_nat n) (Z.to_nat (Z.sqrt n))))
  else None.

(** [range(a)] and [range(a, b)] over indices. *)
Definition range (a b : nat) : list nat := seq a (b - a).

(** [range(1, self.size + 1)]: the values a cell can take. *)
Definition values (s : solver) : list Z :=
  map Z.of_nat (range 1 (size s + 1)).

(** ** Constraint checker *)

(** [SudokuSolver.is_valid]: the row scan, the column scan, then the box
    scan, each leaving with [False] at the first other cell that holds
    [num]. *)
Definition is_valid (s : solver) (board : grid) (row col : nat) (num : Z)
    : result bool :=
  let* ok :=
    for_none (range 0 (size s)) (fun j =>
      let* v := get_cell board row j in
      Ret (bool_decide (v = num) && bool_decide (j <> col))) in
  if negb ok then Ret false else
  let* ok :=
    for_none (range 0 (size s)) (fun i =>
      let* v := get_cell board i col in
      Ret (bool_decide (v = num) && bool_decide (i <> row))) in
  if negb ok then Ret false else
  if decide (subgrid_size s = 0) then Raise ZeroDivisionError else
  let start_row := (row / subgrid_size s) * subgrid_size s in
  let start_col := (col / subgrid_size s) * subgrid_size s in
  let* ok :=
    for_none (range start_row (start_row + subgrid_size s)) (fun i =>
      let* ok_i :=
        for_none (range start_col (start_col + subgrid_size s)) (fun j =>
          let* v := get_cell board i j in
          Ret (bool_decide (v = num) && bool_decide ((i, j) <> (row, col)))) in
      Ret (negb ok_i)) in
  Ret ok.

(** ** Candidate selectors *)

(** [SudokuSolver.find_empty]: the first cell holding 0 in a row-major
    scan. *)
Definition find_empty (s : solver) (board : grid)
    : result (option (nat * nat)) :=
  for_first (range 0 (size s)) (fun i =>
    for_first (range 0 (size s)) (fun j =>
      let* v := get_cell board i j in
      Ret (if bool_decide (v = 0%Z) then Some (i, j) else None))).

(** The inner loop of [find_best_empty]: [possible] collects, in the order of
    [nums], the values that [is_valid] accepts at the cell. *)
Fixpoint possible_values (s : solver) (board : grid) (i j : nat)
    (nums : list Z) : result (list Z) :=
  match nums with
  | [] => Ret []
  | num :: nums' =>
      let* ok := is_valid s board i j num in
      let* rest := possible_values s board i j nums' in
      Ret (if ok then num :: rest else rest)
  end.

(** The loop variables of [find_best_empty]: [best_cell] and
    [min_options]. *)
Abbreviation best := (option (nat * nat * list Z) * nat)%type.

(** One iteration of the scan of [find_best_empty] at cell [(i, j)]. *)
Definition best_step (s : solver) (board : grid) (i j : nat) (st : best)
    : result (ctl best (nat * nat * list Z)) :=
  let* v := get_cell board i j in
  if bool_decide (v = 0%Z) then
    let* possible := possible_values s board i j (values s) in
    if length possible <? snd st then
      if length possible =? 1 then Ret (Break (i, j, possible))
      else Ret (Next (Some (i, j, possible), length possible))
    else Ret (Next st)
  else Ret (Next st).

(** [SudokuSolver.find_best_empty]. *)
Definition find_best_empty (s : solver) (board : grid)
    : result (option (nat * nat * list Z)) :=
  let* c :=
    for_loop (range 0 (size s)) (None, size s + 1) (fun i st =>
      for_loop (range 0 (size s)) st (fun j st => best_step s board i j st)) in
  match c with
  | Next st => Ret (fst st)
  | Break cell => Ret (Some cell)
  end.

(** ** Board validator *)

(** The second component of what [validate_board] returns: the source builds
    a text with an f-string, the model keeps the data the text is built
    from. *)
Inductive message : Set :=
| ValidBoard                                   (* "Valid board" *)
| WrongDimensions (n : nat)                    (* "Board must be {n}x{n}" *)
| ValueOutOfRange (num : Z) (i j : nat) (n : nat)
      (* "Value {num} at ({i},{j}) is not between 0 and {n}" *)
| Conflict (num : Z) (i j : nat).
      (* "Conflict: {num} at ({i},{j}) violates Sudoku rules" *)

(** The body of the two loops of [validate_board] at cell [(i, j)]: the board
    is a loop variable, since the cell is blanked and written back. *)
Definition validate_step (s : solver) (i j : nat) (board : grid)
    : result (ctl grid (bool * message * grid)) :=
  let* num := get_cell board i j in
  if negb (bool_decide (0 <= num)%Z && bool_decide (num <= Z.of_nat (size s))%Z)
  then Ret (Break (false, ValueOutOfRange num i j (size s), board))
  else if bool_decide (num <> 0%Z) then
    let* board0 := set_cell board i j 0%Z in
    let* ok := is_valid s board0 i j num in
    if negb ok then
      let* board1 := set_cell board0 i j num in
      Ret (Break (false, Conflict num i j, board1))
    else
      let* board1 := set_cell board0 i j num in
      Ret (Next board1)
  else Ret (Next board).

(** [SudokuSolver.validate_board]; the board it leaves is returned with the
    answer. *)
Definition validate_board (s : solver) (board : grid)
    : result (bool * message * grid) :=
  if bool_decide (length board <> size s)
     || existsb (fun row => bool_decide (length row <> size s)) board
  then Ret (false, WrongDimensions (size s), board)
  else
    let* c :=
      for_loop (range 0 (size s)) board (fun i board =>
        for_loop (range 0 (size s)) board (fun j board =>
          validate_step s i j board)) in
    match c with
    | Next board' => Ret (true, ValidBoard, board')
    | Break r => Ret r
    end.

(** ** Search engine *)

(** The fields of the solver that a search updates: [recursive_calls] and
    [time_limit_exceeded], and with them the number of times the clock has
    been read since [measure_performance] set [start_time]. *)
Record telemetry : Set := Telemetry {
  recursive_calls : nat;
  clock_reads : nat;
  time_limit_exceeded : bool
}.

Definition tick (t : telemetry) : telemetry :=
  Telemetry (recursive_calls t) (S (clock_reads t)) (time_limit_exceeded t).

Definition count_call (t : telemetry) : telemetry :=
  Telemetry (S (recursive_calls t)) (clock_reads t) (time_limit_exceeded t).

Definition set_exceeded (t : telemetry) : telemetry :=
  Telemetry (recursive_calls t) (clock_reads t) true.

Section Search.

(** The wall clock: [expired k] is what
    [time.time() - self.start_time > self.timeout] evaluates to at the
    [k]-th reading of the clock of one [measure_performance]. *)
Variable expired : nat -> bool.

Variable s : solver.

(** The loop [for num in ...: if self.is_valid(...): ...] that both solvers
    end with; [solve] is the recursive call.  [step_by_step] (printing and
    sleeping) is left out. *)
Definition try_step
    (solve : telemetry -> grid -> result (bool * telemetry * grid))
    (row col : nat) (num : Z) (st : telemetry * grid)
    : result (ctl (telemetry * grid) (telemetry * grid)) :=
  let* ok := is_valid s (snd st) row col num in
  if ok then
    let* board1 := set_cell (snd st) row col num in
    let* r := solve (fst st) board1 in
    if fst (fst r) then Ret (Break (snd (fst r), snd r))
    else
      let* board2 := set_cell (snd r) row col 0%Z in
      Ret (Next (snd (fst r), board2))
  else Ret (Next st).

Definition try_values
    (solve : telemetry -> grid -> result (bool * telemetry * grid))
    (row col : nat) (nums : list Z) (t : telemetry) (board : grid)
    : result (bool * telemetry * grid) :=
  let* c := for_loop nums (t, board) (try_step solve row col) in
  match c with
  | Break st => Ret (true, fst st, snd st)
  | Next st => Ret (false, fst st, snd st)
  end.

(** [SudokuSolver.solve_with_mrv]. *)
Fixpoint solve_with_mrv (fuel : nat) (t : telemetry) (board : grid)
    : result (bool * telemetry * grid) :=
  match fuel with
  | 0 => OutOfFuel
  | S fuel' =>
      if expired (clock_reads t)
      then Ret (false, set_exceeded (tick t), board)
      else
        let t := count_call (tick t) in
        let* best_cell := find_best_empty s board in
        match best_cell with
        | None => Ret (true, t, board)
        | Some (row, col, possible_values) =>
            try_values (solve_with_mrv fuel') row col possible_values
              t board
        end
  end.

(** [SudokuSolver.solve_simple]. *)
Fixpoint solve_simple (fuel : nat) (t : telemetry) (board : grid)
    : result (bool * telemetry * grid) :=
  match fuel with
  | 0 => OutOfFuel
  | S fuel' =>
      if expired (clock_reads t)
      then Ret (false, set_exceeded (tick t), board)
      else
        let t := count_call (tick t) in
        let* empty := find_empty s board in
        match empty with
        | None => Ret (true, t, board)
        | Some (row, col) =>
            try_values (solve_simple fuel') row col (values s) t board
        end
  end.

(** The copy-back loop of [measure_performance]:
    [board[i][j] = board_copy[i][j]] for every cell. *)
Definition copy_back (board board_copy : grid) : result grid :=
  let* c :=
    for_loop (range 0 (size s)) board (fun i board =>
      for_loop (range 0 (size s)) board (fun j board =>
        let* v := get_cell board_copy i j in
        let* board' := set_cell board i j v in
        Ret (Next (R := unit) board'))) in
  match c with
  | Next board' => Ret board'
  | Break _ => Ret board
  end.

(** [SudokuSolver.measure_performance]: what it returns (without the
    elapsed time), the flag [time_limit_exceeded] it leaves, and the
    caller's board after the call. *)
Definition measure_performance (fuel : nat) (board : grid) (use_mrv : bool)
    : result (bool * nat * bool * grid) :=
  let t := Telemetry 0 0 false in
  let board_copy := board in
  let* v := validate_board s board_copy in
  if negb (fst (fst v)) then Ret (false, 0, false, board)
  else
    let* r :=
      if use_mrv then solve_with_mrv fuel t (snd v)
      else solve_simple fuel t (snd v) in
    if fst (fst r) then
      let* board' := copy_back board (snd r) in
      Ret (true, recursive_calls (snd (fst r)),
           time_limit_exceeded (snd (fst r)), board')
    else
      Ret (false, recursive_calls (snd (fst r)),
           time_limit_exceeded (snd (fst r)), board).

End Search.

(** * Vocabulary of the properties *)

(** ** Boards *)

(** The content of a cell, 0 outside the board. *)
Definition cell (g : grid) (i j : nat) : Z :=
  match g !! i with
  | Some row => default 0%Z (row !! j)
  | None => 0%Z
  end.

(** The board after [board[i][j] = v]. *)
Definition upd (g : grid) (i j : nat) (v : Z) : grid :=
  match g !! i with
  | Some row => <[i := <[j := v]> row]> g
  | None => g
  end.

(** The board has [size] rows of [size] cells. *)
Definition wf (s : solver) (g : grid) : Prop :=
  length g = size s /\ Forall (fun row => length row = size s) g.

(** The box size squares to the board size. *)
Definition well_configured (s : solver) : Prop :=
  subgrid_size s * subgrid_size s = size s.

(** The cells of the board in the order the two nested loops visit them. *)
Definition cells (s : solver) : list (nat * nat) :=
  flat_map (fun i => map (pair i) (range 0 (size s))) (range 0 (size s)).

(** ** Loops that cannot raise *)

(** A loop whose iterations cannot raise is a fold that may stop early. *)
Fixpoint pure_loop {A S R} (f : A -> S -> ctl S R) (xs : list A) (st : S)
    : ctl S R :=
  match xs with
  | [] => Next st
  | x :: xs' =>
      match f x st with
      | Next st' => pure_loop f xs' st'
      | Break r => Break r
      end
  end.

Fixpoint first_some {A B} (f : A -> option B) (xs : list A) : option B :=
  match xs with
  | [] => None
  | x :: xs' =>
      match f x with
      | Some v => Some v
      | None => first_some f xs'
      end
  end.

(** ** The checker, the selectors and the validator on well-formed boards *)

Section Vocabulary.
Variable s : solver.
Implicit Types g sol : grid.

(** Cell [(i, j)] is another cell of the row, the column or the box of
    [(r, c)]. *)
Definition peer (r c i j : nat) : Prop :=
  (i, j) <> (r, c) /\
  (i = r \/ j = c \/
   (i / subgrid_size s = r / subgrid_size s /\
    j / subgrid_size s = c / subgrid_size s)).

(** The answer of [is_valid] on a well-formed board, as a boolean. *)
Definition validb g (r c : nat) (v : Z) : bool :=
  let sr := r / subgrid_size s * subgrid_size s in
  let sc := c / subgrid_size s * subgrid_size s in
  negb (existsb (fun j => bool_decide (cell g r j = v) && bool_decide (j <> c))
          (range 0 (size s)))
  && negb (existsb (fun i => bool_decide (cell g i c = v) && bool_decide (i <> r))
             (range 0 (size s)))
  && negb (existsb (fun i =>
             existsb (fun j => bool_decide (cell g i j = v)
                               && bool_decide ((i, j) <> (r, c)))
               (range sc (sc + subgrid_size s)))
             (range sr (sr + subgrid_size s))).

End Vocabulary.

(** The candidate set of a cell: the values the checker accepts there, in the
    order of [range(1, size + 1)]. *)
Definition candidates (s : solver) (g : grid) (i j : nat) : list Z :=
  List.filter (validb s g i j) (values s).

(** The answer of one iteration of [find_empty] on a well-formed board. *)
Definition empty_at (g : grid) (i j : nat) : option (nat * nat) :=
  if bool_decide (cell g i j = 0%Z) then Some (i, j) else None.

(** One iteration of the scan of [find_best_empty] on a well-formed board. *)
Definition best_pure (s : solver) (g : grid) (i j : nat) (st : best)
    : ctl best (nat * nat * list Z) :=
  if bool_decide (cell g i j = 0%Z) then
    let possible := candidates s g i j in
    if length possible <? snd st then
      if length possible =? 1 then Break (i, j, possible)
      else Next (Some (i, j, possible), length possible)
    else Next st
  else Next st.

(** What [validate_board] finds wrong at a cell: first the range of the
    value, then, for a filled cell, the answer of the checker. *)
Definition violation (s : solver) (g : grid) (i j : nat) : option message :=
  let num := cell g i j in
  if negb (bool_decide (0 <= num)%Z && bool_decide (num <= Z.of_nat (size s))%Z)
  then Some (ValueOutOfRange num i j (size s))
  else if bool_decide (num <> 0%Z) && negb (validb s g i j num)
  then Some (Conflict num i j)
  else None.

Section ScanVocabulary.
Variable s : solver.
Variable g : grid.

(** The cell [x] with its candidate set, as selected from the scan [all]:
    every empty cell scanned before it has more candidates than it and at
    least two, and when it has two or more itself, no empty cell scanned
    after it has fewer. *)
Definition chosen (all : list (nat * nat)) (x : nat * nat * list Z) : Prop :=
  snd x = candidates s g (fst (fst x)) (snd (fst x)) /\
  cell g (fst (fst x)) (snd (fst x)) = 0%Z /\
  exists before after, all = before ++ fst x :: after /\
    (forall i j, (i, j) ∈ before -> cell g i j = 0%Z ->
       length (snd x) < length (candidates s g i j) /\
       2 <= length (candidates s g i j)) /\
    (2 <= length (snd x) ->
     forall i j, (i, j) ∈ after -> cell g i j = 0%Z ->
       length (snd x) <= length (candidates s g i j)).

(** The loop variables after the cells [pre] have been scanned. *)
Definition scan_inv (pre : list (nat * nat)) (st : best) : Prop :=
  match fst st with
  | None =>
      snd st = size s + 1 /\ forall i j, (i, j) ∈ pre -> cell g i j <> 0%Z
  | Some x => snd st = length (snd x) /\ length (snd x) <> 1 /\ chosen pre x
  end.

End ScanVocabulary.

(** ** Valid boards, solutions, completions *)

Section SolutionVocabulary.
Variable s : solver.
Implicit Types g sol : grid.

(** Every cell holds a value of [0 .. size]. *)
Definition in_range g : Prop :=
  forall i j, i < size s -> j < size s ->
    (0 <= cell g i j <= Z.of_nat (size s))%Z.

(** No filled cell has its value at one of its peers. *)
Definition consistent g : Prop :=
  forall r c, r < size s -> c < size s -> cell g r c <> 0%Z ->
  forall i j, i < size s -> j < size s -> peer s r c i j ->
    cell g i j <> cell g r c.

(** The validator finds nothing wrong at cell [(i, j)]: its value is in
    range, and when it is filled no peer holds the same value. *)
Definition cell_ok g (i j : nat) : Prop :=
  (0 <= cell g i j <= Z.of_nat (size s))%Z /\
  (cell g i j <> 0%Z ->
   forall i' j', i' < size s -> j' < size s -> peer s i j i' j' ->
     cell g i' j' <> cell g i j).

(** What the validator accepts. *)
Definition valid_board g : Prop := wf s g /\ in_range g /\ consistent g.

(** [sol] keeps the filled cells of [g]. *)
Definition extends g sol : Prop :=
  forall i j, i < size s -> j < size s -> cell g i j <> 0%Z ->
    cell sol i j = cell g i j.

(** A solved board: every cell filled with a value of [1 .. size], no value
    twice in a row, a column or a box. *)
Definition solution sol : Prop :=
  wf s sol /\
  (forall i j, i < size s -> j < size s ->
     (1 <= cell sol i j <= Z.of_nat (size s))%Z) /\
  consistent sol.

Definition solvable g : Prop := exists sol, solution sol /\ extends g sol.

(** [sol] fills the empty cells of [g], each with a value of [1 .. size]
    that the checker accepts on [sol]. *)
Definition completion g sol : Prop :=
  wf s sol /\ extends g sol /\
  forall r c, r < size s -> c < size s -> cell g r c = 0%Z ->
    (1 <= cell sol r c <= Z.of_nat (size s))%Z /\
    validb s sol r c (cell sol r c) = true.

(** The number of empty cells. *)
Definition zeros g : nat :=
  length (List.filter (fun p => bool_decide (cell g (fst p) (snd p) = 0%Z))
            (cells s)).

(** What a call of a solver does on every well-formed board with at most
    [n] empty cells. *)
Definition decides
    (solve : telemetry -> grid -> result (bool * telemetry * grid))
    (n : nat) : Prop :=
  forall t g, wf s g -> zeros g <= n ->
    exists b t' g', solve t g = Ret (b, t', g') /\
      time_limit_exceeded t' = time_limit_exceeded t /\
      (b = true -> completion g g') /\
      (b = false -> g' = g /\ forall sol, ~ completion g sol).

End SolutionVocabulary.

(** ** The search with its strategy as a parameter *)

(** The call [measure_performance] makes: [solve_with_mrv] when [use_mrv],
    [solve_simple] otherwise. *)
Definition solve (expired : nat -> bool) (s : solver) (use_mrv : bool)
    (fuel : nat) (t : telemetry) (board : grid)
    : result (bool * telemetry * grid) :=
  if use_mrv then solve_with_mrv expired s fuel t board
  else solve_simple expired s fuel t board.

(** ** Boards and clocks to run the model on *)

Definition s4 : solver := Solver 4 2.

(** A clock whose deadline is never exceeded. *)
Definition never : nat -> bool := fun _ => false.

(** A clock whose deadline is exceeded from its reading number [d] on. *)
Definition expires_after (d : nat) : nat -> bool := fun k => d <=? k.

(** The 4x4 board of [run_test_cases]. *)
Definition board4 : grid :=
  [[1;0;0;0]; [0;0;3;0]; [0;2;0;0]; [0;0;0;4]]%Z.

Definition solved4 : grid :=
  [[1;3;4;2]; [2;4;3;1]; [4;2;1;3]; [3;1;2;4]]%Z.

(** A valid 4x4 board with no solution: cell (0,0) sees 1, 2, 3 and 4. *)
Definition dead4 : grid :=
  [[0;1;2;0]; [3;0;0;0]; [4;0;0;0]; [0;0;0;0]]%Z.

(** A valid 4x4 board with no solution that the simple search finds out
    by trying: 3 and 4 are both possible at (0,2), and neither leaves a
    value for (0,3), whose column holds 3 and 4. *)
Definition stuck4 : grid :=
  [[1;2;0;0]; [0;0;0;0]; [0;0;0;3]; [0;0;0;4]]%Z.

(** A 4x4 board with two 1s in its first row and a 9 after them. *)
Definition bad4 : grid :=
  [[1;1;9;0]; [0;0;0;0]; [0;0;0;0]; [0;0;0;0]]%Z.

(** A 5x5 board for a solver built with size 5, whose box size is 2. *)
Definition board5 : grid :=
  [[0;0;0;0;0]; [0;0;0;0;0]; [0;0;0;0;0]; [0;0;0;0;0]; [0;0;0;0;1]]%Z.

(** ** Order of the scan, clocks, counters *)

(** Cell [(i, j)] comes before cell [(r, c)] in a row-major scan. *)
Definition scanned_before (p q : nat * nat) : Prop :=
  fst p < fst q \/ (fst p = fst q /\ snd p < snd q).

(** Board [g1] is below board [g2] in the order of the scan: they agree on
    every cell, or at the first cell where they differ [g1] holds the
    smaller value. *)
Definition lex_le (s : solver) (g1 g2 : grid) : Prop :=
  (forall i j, i < size s -> j < size s -> cell g1 i j = cell g2 i j) \/
  exists r c, r < size s /\ c < size s /\
    (forall i j, i < size s -> j < size s -> scanned_before (i, j) (r, c) ->
       cell g1 i j = cell g2 i j) /\
    (cell g1 r c < cell g2 r c)%Z.

(** A clock that does not run backwards: once the deadline is exceeded it
    stays exceeded. *)
Definition monotone_clock (expired : nat -> bool) : Prop :=
  forall k k', k <= k' -> expired k = true -> expired k' = true.

(** The readings of the clock made between two states of the counters. *)
Definition readings (t t' : telemetry) : list nat :=
  seq (clock_reads t) (clock_reads t' - clock_reads t).

(** How the counters [t'] after a search relate to the counters [t] before
    it: every reading of the clock that did not find the deadline exceeded
    is counted as a call, and the timeout flag is set when one found it
    exceeded. *)
Definition accounted (expired : nat -> bool) (t t' : telemetry) : Prop :=
  clock_reads t <= clock_reads t' /\
  recursive_calls t' + length (List.filter expired (readings t t'))
  = recursive_calls t + length (readings t t') /\
  time_limit_exceeded t'
  = time_limit_exceeded t || existsb expired (readings t t').

(** A 6x6 board for a solver of size 6, whose box size is 2. *)
Definition board6 : grid :=
  [[0;0;0;0;0;0]; [0;0;0;0;0;0]; [0;0;0;0;0;0];
   [0;0;0;0;0;0]; [0;0;0;0;0;0]; [0;0;0;0;0;1]]%Z.

(** A clock that runs backwards: the deadline is exceeded at the third
    reading only. *)
Definition hiccup : nat -> bool := fun k => k =? 2.

(** A 4x4 board with two 9s in its first row, and what [solve_simple] makes
    of it. *)
Definition odd4 : grid :=
  [[9;9;0;0]; [0;0;0;0]; [0;0;0;0]; [0;0;0;0]]%Z.

(** A valid 4x4 board with several solutions, the one the simple search
    finds and the one the MRV search finds. *)
Definition corner4 : grid :=
  [[0;0;0;0]; [0;0;0;0]; [0;0;0;0]; [0;0;0;1]]%Z.

Definition corner4_simple : grid :=
  [[1;2;3;4]; [3;4;1;2]; [2;1;4;3]; [4;3;2;1]]%Z.

Definition corner4_mrv : grid :=
  [[3;4;1;2]; [1;2;4;3]; [2;1;3;4]; [4;3;2;1]]%Z.

Definition odd4_filled : grid :=
  [[9;9;1;2]; [1;2;3;4]; [2;1;4;3]; [3;4;2;1]]%Z.

(** * Properties *)

(** ** Loops *)

Lemma elem_of_range a b x : x ∈ range a b <-> a <= x < b.
Proof. unfold range. rewrite elem_of_seq. lia. Qed.

Lemma for_none_pure {A} (xs : list A) (cond : A -> result bool) (f : A -> bool) :
  (forall x, x ∈ xs -> cond x = Ret (f x)) ->
  for_none xs cond = Ret (negb (existsb f xs)).
Proof.
  induction xs as [|x xs IH]; intros H; simpl; [reflexivity|].
  rewrite (H x) by left. simpl.
  destruct (f x); simpl; [reflexivity|].
  apply IH. intros y Hy. apply H. now right.
Qed.

Lemma existsb_elem_of {A} (f : A -> bool) (xs : list A) :
  existsb f xs = true <-> exists x, x ∈ xs /\ f x = true.
Proof.
  rewrite existsb_exists. split; intros (x & Hx & Hf); exists x; split; auto;
    now apply list_elem_of_In.
Qed.

(** ** Well-formed boards *)

Section Boards.
Variable s : solver.
Implicit Types g : grid.

Lemma wf_row g i : wf s g -> i < size s ->
  exists row, g !! i = Some row /\ length row = size s.
Proof.
  intros [Hl Hr] Hi.
  destruct (lookup_lt_is_Some_2 g i) as [row Hrow]; [lia|].
  exists row. split; [assumption|].
  exact (proj1 (Forall_lookup _ _) Hr i row Hrow).
Qed.

Lemma get_cell_wf g i j : wf s g -> i < size s -> j < size s ->
  get_cell g i j = Ret (cell g i j).
Proof.
  intros Hwf Hi Hj. destruct (wf_row g i Hwf Hi) as (row & Hrow & Hlen).
  unfold get_cell, cell. rewrite Hrow.
  destruct (lookup_lt_is_Some_2 row j) as [v Hv]; [lia|].
  now rewrite Hv.
Qed.

Lemma set_cell_wf g i j v : wf s g -> i < size s -> j < size s ->
  set_cell g i j v = Ret (upd g i j v).
Proof.
  intros Hwf Hi Hj. destruct (wf_row g i Hwf Hi) as (row & Hrow & Hlen).
  unfold set_cell, upd. rewrite Hrow.
  destruct (decide (j < length row)); [reflexivity|lia].
Qed.

Lemma upd_wf g i j v : wf s g -> wf s (upd g i j v).
Proof.
  intros [Hl Hr]. unfold upd. destruct (g !! i) as [row|] eqn:Hrow;
    [|now split].
  split; [now rewrite length_insert|].
  apply Forall_insert; [assumption|].
  rewrite length_insert.
  exact (proj1 (Forall_lookup _ _) Hr i row Hrow).
Qed.

Lemma cell_upd g i j v i' j' : wf s g -> i < size s -> j < size s ->
  cell (upd g i j v) i' j' =
    if decide ((i', j') = (i, j)) then v else cell g i' j'.
Proof.
  intros Hwf Hi Hj. destruct (wf_row g i Hwf Hi) as (row & Hrow & Hlen).
  unfold upd, cell. rewrite Hrow.
  destruct (decide (i' = i)) as [->|Hne].
  - rewrite list_lookup_insert_eq by (apply lookup_lt_is_Some; eauto).
    rewrite Hrow.
    destruct (decide (j' = j)) as [->|Hnj].
    + rewrite list_lookup_insert_eq by lia.
      destruct (decide ((i, j) = (i, j))); [reflexivity|congruence].
    + rewrite list_lookup_insert_ne by congruence.
      destruct (decide ((i, j') = (i, j))); [congruence|reflexivity].
  - rewrite list_lookup_insert_ne by congruence.
    destruct (decide ((i', j') = (i, j))); [congruence|reflexivity].
Qed.

Lemma cell_upd_eq g i j v : wf s g -> i < size s -> j < size s ->
  cell (upd g i j v) i j = v.
Proof.
  intros. rewrite cell_upd by assumption.
  destruct (decide ((i, j) = (i, j))); [reflexivity|congruence].
Qed.

Lemma cell_upd_ne g i j v i' j' : wf s g -> i < size s -> j < size s ->
  (i', j') <> (i, j) -> cell (upd g i j v) i' j' = cell g i' j'.
Proof.
  intros. rewrite cell_upd by assumption.
  destruct (decide ((i', j') = (i, j))); [congruence|reflexivity].
Qed.

(** Two well-formed boards with the same cells are the same board. *)
Lemma grid_ext g g' : wf s g -> wf s g' ->
  (forall i j, i < size s -> j < size s -> cell g i j = cell g' i j) ->
  g = g'.
Proof.
  intros Hwf Hwf' Hc. apply list_eq. intros i.
  destruct (decide (i < size s)) as [Hi|Hi].
  - destruct (wf_row g i Hwf Hi) as (row & Hrow & Hlen).
    destruct (wf_row g' i Hwf' Hi) as (row' & Hrow' & Hlen').
    rewrite Hrow, Hrow'. f_equal. apply list_eq. intros j.
    destruct (decide (j < size s)) as [Hj|Hj].
    + specialize (Hc i j Hi Hj). unfold cell in Hc.
      rewrite Hrow, Hrow' in Hc.
      destruct (lookup_lt_is_Some_2 row j) as [v Hv]; [lia|].
      destruct (lookup_lt_is_Some_2 row' j) as [v' Hv']; [lia|].
      rewrite Hv, Hv' in *. simpl in Hc. congruence.
    + rewrite !lookup_ge_None_2 by lia. reflexivity.
  - destruct Hwf as [Hl _], Hwf' as [Hl' _].
    rewrite !lookup_ge_None_2 by lia. reflexivity.
Qed.

End Boards.

(** ** The constraint checker *)

Section Checker.
Variable s : solver.
Implicit Types g : grid.

Hypothesis Hwc : well_configured s.

Lemma box_positive r : r < size s -> 0 < subgrid_size s.
Proof. unfold well_configured in Hwc. intros Hr. nia. Qed.

Lemma box_bound r : r < size s ->
  r / subgrid_size s * subgrid_size s + subgrid_size s <= size s.
Proof.
  intros Hr. pose proof (box_positive r Hr) as Hb.
  assert (r / subgrid_size s < subgrid_size s) as Hq.
  { apply Nat.Div0.div_lt_upper_bound. unfold well_configured in Hwc. lia. }
  unfold well_configured in Hwc. nia.
Qed.

Lemma in_box r i : 0 < subgrid_size s ->
  r / subgrid_size s * subgrid_size s <= i
    < r / subgrid_size s * subgrid_size s + subgrid_size s
  <-> i / subgrid_size s = r / subgrid_size s.
Proof.
  intros Hb. split.
  - intros Hi. symmetry.
    apply (Nat.div_unique i (subgrid_size s) (r / subgrid_size s)
             (i - r / subgrid_size s * subgrid_size s)); lia.
  - intros <-.
    pose proof (Nat.div_mod_eq i (subgrid_size s)) as Hdm.
    pose proof (Nat.mod_upper_bound i (subgrid_size s)) as Hm.
    lia.
Qed.

Lemma is_valid_validb g r c v : wf s g -> r < size s -> c < size s ->
  is_valid s g r c v = Ret (validb s g r c v).
Proof.
  intros Hwf Hr Hc. unfold is_valid, validb.
  pose proof (box_positive r Hr) as Hb.
  pose proof (box_bound r Hr) as Hbr. pose proof (box_bound c Hc) as Hbc.
  rewrite (for_none_pure _ _
    (fun j => bool_decide (cell g r j = v) && bool_decide (j <> c))).
  2:{ intros j Hj%elem_of_range. rewrite (get_cell_wf s) by (assumption || lia).
      reflexivity. }
  simpl. destruct (existsb _ (range 0 (size s))); simpl; [reflexivity|].
  rewrite (for_none_pure _ _
    (fun i => bool_decide (cell g i c = v) && bool_decide (i <> r))).
  2:{ intros i Hi%elem_of_range. rewrite (get_cell_wf s) by (assumption || lia).
      reflexivity. }
  simpl. destruct (existsb _ (range 0 (size s))); simpl; [reflexivity|].
  destruct (decide (subgrid_size s = 0)) as [H0|_]; [lia|].
  rewrite (for_none_pure _ _
    (fun i => existsb (fun j => bool_decide (cell g i j = v)
                                && bool_decide ((i, j) <> (r, c)))
       (range (c / subgrid_size s * subgrid_size s)
              (c / subgrid_size s * subgrid_size s + subgrid_size s)))).
  2:{ intros i Hi%elem_of_range.
      rewrite (for_none_pure _ _
        (fun j => bool_decide (cell g i j = v)
                  && bool_decide ((i, j) <> (r, c)))).
      - simpl. now rewrite negb_involutive.
      - intros j Hj%elem_of_range.
        rewrite (get_cell_wf s) by (assumption || lia). reflexivity. }
  reflexivity.
Qed.

Lemma validb_false g r c v : r < size s -> c < size s ->
  validb s g r c v = false <->
  exists i j, i < size s /\ j < size s /\ peer s r c i j /\ cell g i j = v.
Proof.
  intros Hr Hc. pose proof (box_positive r Hr) as Hb.
  pose proof (box_bound r Hr) as Hbr. pose proof (box_bound c Hc) as Hbc.
  unfold validb. rewrite !andb_false_iff, !negb_false_iff.
  rewrite !existsb_elem_of. split.
  - intros [[(j & Hj%elem_of_range & Hf)|(i & Hi%elem_of_range & Hf)]
           |(i & Hi%elem_of_range & Hf)].
    + apply andb_true_iff in Hf as [Hv%bool_decide_eq_true Hn%bool_decide_eq_true].
      exists r, j. repeat split; [assumption|lia|congruence|auto|assumption].
    + apply andb_true_iff in Hf as [Hv%bool_decide_eq_true Hn%bool_decide_eq_true].
      exists i, c. repeat split; [lia|assumption|congruence|auto|assumption].
    + apply existsb_elem_of in Hf as (j & Hj%elem_of_range & Hf).
      apply andb_true_iff in Hf as [Hv%bool_decide_eq_true Hn%bool_decide_eq_true].
      exists i, j. repeat split; [lia|lia|assumption| |assumption].
      right; right. split; now apply in_box.
  - intros (i & j & Hi & Hj & [Hne [->|[->|[Hbi Hbj]]]] & Hv).
    + left; left. exists j. split; [apply elem_of_range; lia|].
      apply andb_true_iff. split; apply bool_decide_eq_true; congruence.
    + left; right. exists i. split; [apply elem_of_range; lia|].
      apply andb_true_iff. split; apply bool_decide_eq_true; congruence.
    + right. exists i. split; [apply elem_of_range; now apply in_box|].
      apply existsb_elem_of. exists j.
      split; [apply elem_of_range; now apply in_box|].
      apply andb_true_iff. split; apply bool_decide_eq_true; assumption.
Qed.

Lemma validb_true g r c v : r < size s -> c < size s ->
  validb s g r c v = true <->
  forall i j, i < size s -> j < size s -> peer s r c i j -> cell g i j <> v.
Proof.
  intros Hr Hc. split.
  - intros Hv i j Hi Hj Hp He.
    assert (validb s g r c v = false) as Hf
      by (apply validb_false; eauto 8).
    congruence.
  - intros H. destruct (validb s g r c v) eqn:Hv; [reflexivity|].
    apply validb_false in Hv as (i & j & Hi & Hj & Hp & He); [|assumption..].
    now destruct (H i j Hi Hj Hp).
Qed.

Lemma peer_sym r c i j : peer s r c i j -> peer s i j r c.
Proof.
  intros [Hne H]. split; [congruence|].
  destruct H as [->|[->|[-> ->]]]; auto.
Qed.

(** The checker never looks at the cell it is asked about. *)
Lemma validb_upd_self g r c v w : wf s g -> r < size s -> c < size s ->
  validb s (upd g r c w) r c v = validb s g r c v.
Proof.
  intros Hwf Hr Hc.
  destruct (validb s g r c v) eqn:Hv.
  - apply validb_true; [assumption..|]. intros i j Hi Hj Hp.
    rewrite (cell_upd_ne s) by (assumption || apply Hp).
    revert i j Hi Hj Hp. now apply validb_true.
  - apply validb_false; [assumption..|].
    apply validb_false in Hv as (i & j & Hi & Hj & Hp & He); [|assumption..].
    exists i, j. repeat split; try assumption; try apply Hp.
    rewrite (cell_upd_ne s) by (assumption || apply Hp). assumption.
Qed.

End Checker.

(** ** Loops with loop variables, nested loops *)

Lemma for_loop_pure {A S R} (xs : list A) (body : A -> S -> result (ctl S R))
    (f : A -> S -> ctl S R) (P : S -> Prop) (st : S) :
  P st ->
  (forall x st, x ∈ xs -> P st -> body x st = Ret (f x st)) ->
  (forall x st st', x ∈ xs -> P st -> f x st = Next st' -> P st') ->
  for_loop xs st body = Ret (pure_loop f xs st).
Proof.
  revert st. induction xs as [|x xs IH]; intros st HP Hb Hf; simpl;
    [reflexivity|].
  rewrite (Hb x st) by (left || assumption). simpl.
  destruct (f x st) as [st'|r] eqn:E; [|reflexivity].
  apply IH.
  - apply (Hf x st st'); [left|assumption..].
  - intros y st0 Hy. apply Hb. now right.
  - intros y st0 st1 Hy. apply Hf. now right.
Qed.

Lemma for_first_pure {A B} (xs : list A) (body : A -> result (option B))
    (f : A -> option B) :
  (forall x, x ∈ xs -> body x = Ret (f x)) ->
  for_first xs body = Ret (first_some f xs).
Proof.
  induction xs as [|x xs IH]; intros H; simpl; [reflexivity|].
  rewrite (H x) by left. simpl. destruct (f x); [reflexivity|].
  apply IH. intros y Hy. apply H. now right.
Qed.

(** What holds of the loop variables at entry and is kept by every iteration
    that returns holds when the loop returns. *)
Lemma for_loop_ind {A S R} (P : S -> Prop) (Q : R -> Prop) (xs : list A)
    (body : A -> S -> result (ctl S R)) (st : S) (c : ctl S R) :
  P st ->
  (forall x st c, x ∈ xs -> P st -> body x st = Ret c ->
     match c with Next st' => P st' | Break r => Q r end) ->
  for_loop xs st body = Ret c ->
  match c with Next st' => P st' | Break r => Q r end.
Proof.
  revert st. induction xs as [|x xs IH]; intros st HP Hb; simpl.
  - intros [= <-]. exact HP.
  - destruct (body x st) as [c0| |] eqn:E; simpl; try discriminate.
    pose proof (Hb x st c0 (list_elem_of_here _ _) HP E) as H0.
    destruct c0 as [st'|r].
    + apply IH; [exact H0|]. intros y st0 c1 Hy. apply Hb. now right.
    + intros [= <-]. exact H0.
Qed.

Lemma for_first_some {A B} (xs : list A) (body : A -> result (option B)) v :
  for_first xs body = Ret (Some v) ->
  exists x, x ∈ xs /\ body x = Ret (Some v).
Proof.
  induction xs as [|x xs IH]; simpl; [discriminate|].
  destruct (body x) as [[w|]| |] eqn:E; simpl; try discriminate.
  - intros [= ->]. exists x. split; [left|assumption].
  - intros (y & Hy & Hb)%IH. exists y. split; [now right|assumption].
Qed.

Lemma pure_loop_app {A S R} (f : A -> S -> ctl S R) xs ys st :
  pure_loop f (xs ++ ys) st =
    match pure_loop f xs st with
    | Next st' => pure_loop f ys st'
    | Break r => Break r
    end.
Proof.
  revert st. induction xs as [|x xs IH]; intros st; simpl; [reflexivity|].
  destruct (f x st); [apply IH|reflexivity].
Qed.

Lemma pure_loop_map {A A' S R} (h : A -> A') (f : A' -> S -> ctl S R) xs st :
  pure_loop f (map h xs) st = pure_loop (fun x => f (h x)) xs st.
Proof.
  revert st. induction xs as [|x xs IH]; intros st; simpl; [reflexivity|].
  destruct (f (h x) st); [apply IH|reflexivity].
Qed.

(** Two nested loops are one loop over the pairs, outer index first. *)
Lemma pure_loop_nested {A A' S R} (f : A -> A' -> S -> ctl S R) xs ys st :
  pure_loop (fun x st => pure_loop (f x) ys st) xs st =
  pure_loop (fun p => f (fst p) (snd p))
    (flat_map (fun x => map (pair x) ys) xs) st.
Proof.
  revert st. induction xs as [|x xs IH]; intros st; simpl; [reflexivity|].
  rewrite pure_loop_app, pure_loop_map. simpl.
  destruct (pure_loop (f x) ys st); [apply IH|reflexivity].
Qed.

Lemma first_some_app {A B} (f : A -> option B) xs ys :
  first_some f (xs ++ ys) =
    match first_some f xs with Some v => Some v | None => first_some f ys end.
Proof.
  induction xs as [|x xs IH]; simpl; [reflexivity|].
  destruct (f x); [reflexivity|apply IH].
Qed.

Lemma first_some_nested {A A' B} (f : A -> A' -> option B) xs ys :
  first_some (fun x => first_some (f x) ys) xs =
  first_some (fun p => f (fst p) (snd p))
    (flat_map (fun x => map (pair x) ys) xs).
Proof.
  induction xs as [|x xs IH]; simpl; [reflexivity|].
  rewrite first_some_app, IH.
  assert (first_some (f x) ys =
          first_some (fun p => f (fst p) (snd p)) (map (pair x) ys)) as ->;
    [|reflexivity].
  clear. induction ys as [|y ys IH]; simpl; [reflexivity|].
  destruct (f x y); [reflexivity|apply IH].
Qed.

(** [first_some] finds the first element with an answer. *)
Lemma first_some_Some {A B} (f : A -> option B) xs v :
  first_some f xs = Some v <->
  exists before x after, xs = before ++ x :: after /\ f x = Some v /\
    forall y, y ∈ before -> f y = None.
Proof.
  induction xs as [|x xs IH]; simpl.
  - split; [discriminate|]. intros (b & y & a & H & _). now destruct b.
  - destruct (f x) as [w|] eqn:E.
    + split.
      * intros [= ->]. exists [], x, xs. repeat split; [assumption|].
        intros y Hy. inversion Hy.
      * intros (b & y & a & H & Hy & Hb). destruct b as [|z b]; simpl in H.
        -- injection H as -> _. congruence.
        -- injection H as -> _. rewrite (Hb z) in E by left. discriminate.
    + rewrite IH. split.
      * intros (b & y & a & -> & Hy & Hb). exists (x :: b), y, a.
        repeat split; [assumption|]. intros z Hz.
        apply elem_of_cons in Hz as [->|Hz]; auto.
      * intros (b & y & a & H & Hy & Hb). destruct b as [|z b]; simpl in H.
        -- injection H as -> _. congruence.
        -- injection H as -> ->. exists b, y, a. repeat split; [assumption|].
           intros w Hw. apply Hb. now right.
Qed.

Lemma first_some_None {A B} (f : A -> option B) xs :
  first_some f xs = None <-> forall x, x ∈ xs -> f x = None.
Proof.
  induction xs as [|x xs IH]; simpl.
  - split; [|reflexivity]. intros _ x Hx. inversion Hx.
  - destruct (f x) eqn:E.
    + split; [discriminate|]. intros H. rewrite (H x) in E by left.
      discriminate.
    + rewrite IH. split.
      * intros H y Hy. apply elem_of_cons in Hy as [->|Hy]; auto.
      * intros H y Hy. apply H. now right.
Qed.

(** ** The row-major scan *)

Lemma elem_of_cells s i j : (i, j) ∈ cells s <-> i < size s /\ j < size s.
Proof.
  unfold cells. rewrite list_elem_of_In, in_flat_map. split.
  - intros (x & Hx & Hm). apply in_map_iff in Hm as (y & [= -> ->] & Hy).
    apply list_elem_of_In, elem_of_range in Hx, Hy. lia.
  - intros [Hi Hj]. exists i. split.
    + apply list_elem_of_In, elem_of_range. lia.
    + apply in_map. apply list_elem_of_In, elem_of_range. lia.
Qed.

Lemma values_length s : length (values s) = size s.
Proof. unfold values, range. rewrite length_map, length_seq. lia. Qed.

Lemma elem_of_values s v :
  v ∈ values s <-> (1 <= v <= Z.of_nat (size s))%Z.
Proof.
  unfold values. rewrite list_elem_of_fmap. split.
  - intros (k & -> & Hk%elem_of_range). lia.
  - intros Hv. exists (Z.to_nat v). split; [lia|]. apply elem_of_range. lia.
Qed.

Lemma candidates_length s g i j : length (candidates s g i j) <= size s.
Proof.
  unfold candidates. rewrite <- (values_length s). apply filter_length_le.
Qed.

Lemma elem_of_candidates s g i j v :
  v ∈ candidates s g i j <->
  (1 <= v <= Z.of_nat (size s))%Z /\ validb s g i j v = true.
Proof.
  unfold candidates. rewrite list_elem_of_In, filter_In, <- list_elem_of_In.
  now rewrite elem_of_values.
Qed.

Lemma of_nat_seq_sorted a n : StronglySorted Z.lt (map Z.of_nat (seq a n)).
Proof.
  revert a. induction n as [|n IH]; intros a; simpl; constructor.
  - apply IH.
  - apply Forall_forall. intros x Hx.
    apply list_elem_of_fmap in Hx as (k & -> & Hk%elem_of_seq). lia.
Qed.

Lemma filter_sorted {A} (R : A -> A -> Prop) (f : A -> bool) xs :
  StronglySorted R xs -> StronglySorted R (List.filter f xs).
Proof.
  induction 1 as [|x xs Hs IH Hx]; simpl; [constructor|].
  destruct (f x); [|assumption]. constructor; [assumption|].
  apply Forall_forall. intros y Hy.
  apply list_elem_of_In, filter_In in Hy as [Hy _].
  apply list_elem_of_In in Hy.
  exact (proj1 (Forall_forall _ _) Hx y Hy).
Qed.

Lemma candidates_sorted s g i j : StronglySorted Z.lt (candidates s g i j).
Proof. apply filter_sorted, of_nat_seq_sorted. Qed.

Section Selectors.
Variable s : solver.
Hypothesis Hwc : well_configured s.
Implicit Types g : grid.

Lemma find_empty_pure g : wf s g ->
  find_empty s g =
    Ret (first_some (fun p => empty_at g (fst p) (snd p)) (cells s)).
Proof.
  intros Hwf. unfold find_empty, cells.
  rewrite <- (first_some_nested (empty_at g)).
  apply for_first_pure. intros i Hi%elem_of_range.
  apply for_first_pure. intros j Hj%elem_of_range.
  rewrite (get_cell_wf s) by (assumption || lia). reflexivity.
Qed.

Lemma possible_values_pure g i j nums :
  wf s g -> i < size s -> j < size s ->
  possible_values s g i j nums = Ret (List.filter (validb s g i j) nums).
Proof.
  intros Hwf Hi Hj. induction nums as [|v nums IH]; simpl; [reflexivity|].
  rewrite is_valid_validb by assumption. simpl. rewrite IH. reflexivity.
Qed.

Lemma best_step_pure g i j st : wf s g -> i < size s -> j < size s ->
  best_step s g i j st = Ret (best_pure s g i j st).
Proof.
  intros Hwf Hi Hj. unfold best_step, best_pure.
  rewrite (get_cell_wf s) by assumption. simpl.
  destruct (bool_decide (cell g i j = 0%Z)); [|reflexivity].
  rewrite possible_values_pure by assumption. simpl.
  fold (candidates s g i j).
  destruct (_ <? _); [|reflexivity]. now destruct (_ =? _).
Qed.

Lemma find_best_empty_pure g : wf s g ->
  find_best_empty s g =
    Ret match pure_loop (fun p => best_pure s g (fst p) (snd p)) (cells s)
                (None, size s + 1) with
        | Next st => fst st
        | Break c => Some c
        end.
Proof.
  intros Hwf. unfold find_best_empty, cells.
  rewrite <- (pure_loop_nested (best_pure s g)).
  rewrite (for_loop_pure _ _
    (fun i st => pure_loop (best_pure s g i) (range 0 (size s)) st)
    (fun _ => True)); [|exact I| |auto].
  - simpl. now destruct (pure_loop _ _ _).
  - intros i st Hi%elem_of_range _.
    apply (for_loop_pure _ _ _ (fun _ => True)); [exact I| |auto].
    intros j st' Hj%elem_of_range _.
    apply best_step_pure; assumption || lia.
Qed.

End Selectors.

(** ** What the MRV scan selects *)

Section BestScan.
Variable s : solver.
Variable g : grid.

Lemma scan_step pre st i j : scan_inv s g pre st ->
  match best_pure s g i j st with
  | Next st' => scan_inv s g (pre ++ [(i, j)]) st'
  | Break x => forall rest, chosen s g (pre ++ (i, j) :: rest) x
  end.
Proof.
  intros Hinv. unfold best_pure.
  pose proof (candidates_length s g i j) as Hle.
  destruct (bool_decide (cell g i j = 0%Z)) eqn:Hz.
  - apply bool_decide_eq_true in Hz. simpl.
    destruct (Nat.ltb_spec (length (candidates s g i j)) (snd st)) as [Hlt|Hge].
    + assert (forall i' j', (i', j') ∈ pre -> cell g i' j' = 0%Z ->
                length (candidates s g i j) < length (candidates s g i' j') /\
                2 <= length (candidates s g i' j')) as Hpre.
      { intros i' j' Hin Hz'. unfold scan_inv in Hinv.
        destruct (fst st) as [[[r c] poss]|].
        - destruct Hinv as (Hm & Hn1 & Hp & _ & b & a & -> & Hb & Ha).
          simpl in *. subst poss.
          apply elem_of_app in Hin as [Hin|Hin].
          + specialize (Hb i' j' Hin Hz'). lia.
          + apply elem_of_cons in Hin as [[= -> ->]|Hin]; [lia|].
            assert (2 <= length (candidates s g r c)) as H2 by lia.
            specialize (Ha H2 i' j' Hin Hz'). lia.
        - destruct Hinv as [_ Hnz]. now destruct (Hnz i' j' Hin). }
      destruct (Nat.eqb_spec (length (candidates s g i j)) 1) as [H1|H1].
      * intros rest. repeat split; simpl; [assumption|].
        exists pre, rest. repeat split; try apply Hpre; try assumption.
        simpl. lia.
      * unfold scan_inv. simpl. repeat split; [assumption..|].
        exists pre, []. repeat split; try apply Hpre; try assumption.
        intros _ i' j' Hin. inversion Hin.
    + unfold scan_inv in *. destruct (fst st) as [[[r c] poss]|].
      * destruct Hinv as (Hm & Hn1 & Hp & Hc & b & a & -> & Hb & Ha).
        simpl in *. repeat split; try assumption.
        exists b, (a ++ [(i, j)]). split; [now rewrite <- app_assoc|].
        split; [assumption|]. intros H2 i' j' Hin Hz'.
        apply elem_of_app in Hin as [Hin|Hin]; [now apply Ha|].
        apply list_elem_of_singleton in Hin as [= -> ->]. simpl. lia.
      * destruct Hinv as [Hm _]. lia.
  - apply bool_decide_eq_false in Hz. unfold scan_inv in *.
    destruct (fst st) as [[[r c] poss]|].
    + destruct Hinv as (Hm & Hn1 & Hp & Hc & b & a & -> & Hb & Ha).
      simpl in *. repeat split; try assumption.
      exists b, (a ++ [(i, j)]). split; [now rewrite <- app_assoc|].
      split; [assumption|]. intros H2 i' j' Hin Hz'.
      apply elem_of_app in Hin as [Hin|Hin]; [now apply Ha|].
      apply list_elem_of_singleton in Hin as [= -> ->]. contradiction.
    + destruct Hinv as [Hm Hnz]. split; [assumption|].
      intros i' j' Hin. apply elem_of_app in Hin as [Hin|Hin]; [auto|].
      apply list_elem_of_singleton in Hin as [= -> ->]. assumption.
Qed.

Lemma scan_loop cs : forall pre st, scan_inv s g pre st ->
  match pure_loop (fun p => best_pure s g (fst p) (snd p)) cs st with
  | Next st' => scan_inv s g (pre ++ cs) st'
  | Break x => chosen s g (pre ++ cs) x
  end.
Proof.
  induction cs as [|[i j] cs IH]; intros pre st Hinv; simpl.
  - now rewrite app_nil_r.
  - pose proof (scan_step pre st i j Hinv) as Hstep.
    destruct (best_pure s g i j st) as [st'|x].
    + specialize (IH _ _ Hstep). rewrite <- app_assoc in IH. exact IH.
    + apply Hstep.
Qed.

End BestScan.

Lemma find_best_empty_chosen s g : well_configured s -> wf s g ->
  exists o, find_best_empty s g = Ret o /\
    (o = None <-> forall i j, i < size s -> j < size s -> cell g i j <> 0%Z) /\
    (forall x, o = Some x -> chosen s g (cells s) x).
Proof.
  intros Hwc Hwf. rewrite find_best_empty_pure by assumption.
  eexists. split; [reflexivity|].
  assert (scan_inv s g [] (None, size s + 1)) as Hinit.
  { split; [reflexivity|]. intros i j Hin. inversion Hin. }
  pose proof (scan_loop s g (cells s) [] _ Hinit) as Hloop. simpl in Hloop.
  assert (forall x, chosen s g (cells s) x ->
            ~ (forall i j, i < size s -> j < size s -> cell g i j <> 0%Z)) as Hne.
  { intros [[r c] poss] (_ & Hz & b & a & Hall & _) Hnz. simpl in *.
    assert ((r, c) ∈ cells s) as Hin.
    { rewrite Hall. apply elem_of_app. right. left. }
    apply elem_of_cells in Hin as [Hr Hc]. now apply (Hnz r c). }
  destruct (pure_loop _ (cells s) _) as [[o m]|x]; simpl.
  - unfold scan_inv in Hloop. simpl in Hloop. destruct o as [x|].
    + destruct Hloop as (_ & _ & Hch). split.
      * split; [discriminate|]. intros Hnz. now destruct (Hne x Hch).
      * now intros ? [= <-].
    + destruct Hloop as [_ Hnz]. split; [|discriminate].
      split; [|reflexivity]. intros _ i j Hi Hj. apply Hnz.
      now apply elem_of_cells.
  - split.
    + split; [discriminate|]. intros Hnz. now destruct (Hne x Hloop).
    + now intros ? [= <-].
Qed.

(** ** The board validator *)

Lemma dimensions_wf s (g : grid) :
  bool_decide (length g <> size s)
  || existsb (fun row => bool_decide (length row <> size s)) g = false
  <-> wf s g.
Proof.
  unfold wf. rewrite orb_false_iff, bool_decide_eq_false.
  rewrite Forall_forall. split.
  - intros [Hl He]. split; [lia|]. intros row Hrow.
    destruct (decide (length row = size s)) as [|Hne]; [assumption|].
    assert (existsb (fun row => bool_decide (length row <> size s)) g = true)
      as Ht; [|congruence].
    apply existsb_elem_of. exists row. split; [assumption|].
    now apply bool_decide_eq_true.
  - intros [Hl Hr]. split; [lia|].
    destruct (existsb _ g) eqn:E; [|reflexivity].
    apply existsb_elem_of in E as (row & Hrow & Hb%bool_decide_eq_true).
    now destruct Hb; apply Hr.
Qed.

(** Writing a cell and then writing back what it held gives the board
    back. *)
Lemma set_cell_restore (g g0 g1 : grid) i j num w :
  get_cell g i j = Ret num -> set_cell g i j w = Ret g0 ->
  set_cell g0 i j num = Ret g1 -> g1 = g.
Proof.
  unfold get_cell, set_cell. destruct (g !! i) as [row|] eqn:Hrow; [|discriminate].
  destruct (row !! j) as [v|] eqn:Hv; [|discriminate]. intros [= ->].
  destruct (decide (j < length row)); [|discriminate]. intros [= <-].
  assert (i < length g) as Hi by (apply lookup_lt_is_Some; eauto).
  rewrite list_lookup_insert_eq by assumption.
  destruct (decide (j < length (<[j:=w]> row))); [|discriminate].
  intros [= <-].
  rewrite list_insert_insert_eq, list_insert_insert_eq.
  rewrite (list_insert_id row j num Hv). now apply list_insert_id.
Qed.

Section Validator.
Variable s : solver.
Implicit Types g : grid.

(** Whatever the configuration, an iteration that returns leaves the
    board as it found it. *)
Lemma validate_step_frame g i j c : validate_step s i j g = Ret c ->
  match c with Next g' => g' = g | Break r => snd r = g end.
Proof.
  unfold validate_step.
  destruct (get_cell g i j) as [num| |] eqn:Hget; simpl; try discriminate.
  destruct (negb _); [now intros [= <-]|].
  destruct (bool_decide (num <> 0%Z)); [|now intros [= <-]].
  destruct (set_cell g i j 0%Z) as [g0| |] eqn:Hset0; simpl; try discriminate.
  destruct (is_valid s g0 i j num) as [ok| |]; simpl; try discriminate.
  destruct ok; simpl;
    destruct (set_cell g0 i j num) as [g1| |] eqn:Hset1; simpl;
    try discriminate; intros [= <-]; simpl;
    exact (set_cell_restore g g0 g1 i j num 0%Z Hget Hset0 Hset1).
Qed.

Lemma validate_board_frame g r : validate_board s g = Ret r -> snd r = g.
Proof.
  unfold validate_board. destruct (_ || _); [now intros [= <-]|].
  destruct (for_loop _ _ _) as [c| |] eqn:Hloop; simpl; try discriminate.
  apply (for_loop_ind (fun g' => g' = g) (fun r => snd r = g)) in Hloop.
  - destruct c; intros [= <-]; assumption.
  - reflexivity.
  - intros i st c0 _ -> Hinner.
    apply (for_loop_ind (fun g' => g' = g) (fun r => snd r = g)) in Hinner;
      [assumption|reflexivity|].
    intros j st c1 _ ->. apply validate_step_frame.
Qed.

Hypothesis Hwc : well_configured s.

Lemma upd_restore g i j w : wf s g -> i < size s -> j < size s ->
  upd (upd g i j w) i j (cell g i j) = g.
Proof.
  intros Hwf Hi Hj. apply (grid_ext s); [now do 2 apply upd_wf|assumption|].
  intros i' j' _ _.
  rewrite (cell_upd s) by (try apply upd_wf; assumption).
  destruct (decide ((i', j') = (i, j))) as [[= -> ->]|Hne]; [reflexivity|].
  now apply (cell_upd_ne s).
Qed.

Lemma validate_step_pure g i j : wf s g -> i < size s -> j < size s ->
  validate_step s i j g =
    Ret match violation s g i j with
        | Some m => Break (false, m, g)
        | None => Next g
        end.
Proof.
  intros Hwf Hi Hj. unfold validate_step, violation.
  rewrite (get_cell_wf s) by assumption. simpl.
  destruct (negb _); [reflexivity|].
  destruct (bool_decide (cell g i j <> 0%Z)); simpl; [|reflexivity].
  rewrite (set_cell_wf s) by assumption. simpl.
  rewrite is_valid_validb by (try apply upd_wf; assumption). simpl.
  rewrite validb_upd_self by assumption.
  rewrite (set_cell_wf s) by (try apply upd_wf; assumption). simpl.
  rewrite upd_restore by assumption.
  now destruct (validb s g i j (cell g i j)).
Qed.

Lemma validate_scan g (cs : list (nat * nat)) :
  pure_loop (fun p (st : grid) =>
               match violation s st (fst p) (snd p) with
               | Some m => Break (false, m, st)
               | None => Next st
               end) cs g =
  match first_some (fun p => violation s g (fst p) (snd p)) cs with
  | Some m => Break (false, m, g)
  | None => Next g
  end.
Proof.
  induction cs as [|p cs IH]; simpl; [reflexivity|].
  destruct (violation s g (fst p) (snd p)); [reflexivity|apply IH].
Qed.

Lemma validate_board_pure g : wf s g ->
  validate_board s g =
    Ret match first_some (fun p => violation s g (fst p) (snd p)) (cells s) with
        | Some m => (false, m, g)
        | None => (true, ValidBoard, g)
        end.
Proof.
  intros Hwf. unfold validate_board.
  rewrite (proj2 (dimensions_wf s g) Hwf).
  rewrite (for_loop_pure _ _
    (fun i st => pure_loop (fun j (st : grid) =>
       match violation s st i j with
       | Some m => Break (false, m, st)
       | None => Next st
       end) (range 0 (size s)) st) (wf s)); [|assumption| |].
  - rewrite (pure_loop_nested (fun i j (st : grid) =>
       match violation s st i j with
       | Some m => Break (false, m, st)
       | None => Next st
       end)).
    fold (cells s). rewrite validate_scan. simpl.
    now destruct (first_some _ _).
  - intros i st Hi%elem_of_range Hst.
    apply (for_loop_pure _ _ _ (wf s)); [assumption| |].
    + intros j st' Hj%elem_of_range Hst'.
      apply validate_step_pure; assumption || lia.
    + intros j st0 st1 _ Hst0.
      destruct (violation s st0 i j); [discriminate|]. now intros [= <-].
  - intros i st st' _ Hst Hl.
    assert (forall (cs : list nat) (st0 : grid),
              pure_loop (fun x (st1 : grid) =>
                match violation s st1 i x with
                | Some m => Break (false, m, st1)
                | None => Next st1
                end) cs st0 = Next st' -> st' = st0) as Hsame.
    { clear. induction cs as [|x cs IH]; simpl; intros st0.
      - now intros [= <-].
      - destruct (violation s st0 i x); [discriminate|apply IH]. }
    apply Hsame in Hl. now subst.
Qed.

End Validator.

(** ** Backtracking gives the board back *)

Section Restore.
Variable expired : nat -> bool.
Variable s : solver.
Implicit Types g : grid.

Lemma find_empty_some g r c :
  find_empty s g = Ret (Some (r, c)) -> get_cell g r c = Ret 0%Z.
Proof.
  unfold find_empty. intros (i & _ & Hi)%for_first_some.
  apply for_first_some in Hi as (j & _ & Hj).
  destruct (get_cell g i j) as [v| |] eqn:Hget; simpl in Hj; try discriminate.
  destruct (bool_decide (v = 0%Z)) eqn:Hv; [|discriminate].
  apply bool_decide_eq_true in Hv. injection Hj as -> ->. now subst.
Qed.

Lemma find_best_empty_some g r c poss :
  find_best_empty s g = Ret (Some (r, c, poss)) -> get_cell g r c = Ret 0%Z.
Proof.
  unfold find_best_empty.
  destruct (for_loop _ _ _) as [cl| |] eqn:Hloop; simpl; try discriminate.
  set (P := fun st : best =>
              forall x, fst st = Some x ->
                get_cell g (fst (fst x)) (snd (fst x)) = Ret 0%Z).
  set (Q := fun x : nat * nat * list Z =>
              get_cell g (fst (fst x)) (snd (fst x)) = Ret 0%Z).
  apply (for_loop_ind P Q) in Hloop.
  - destruct cl as [st|x]; intros [= H].
    + exact (Hloop _ H).
    + subst x. exact Hloop.
  - intros x. discriminate.
  - intros i st c0 _ HP Hinner.
    apply (for_loop_ind P Q) in Hinner; [assumption..|].
    clear. intros j st c1 _ HP. unfold best_step.
    destruct (get_cell g i j) as [v| |] eqn:Hget; simpl; try discriminate.
    destruct (bool_decide (v = 0%Z)) eqn:Hv; [|now intros [= <-]].
    apply bool_decide_eq_true in Hv. subst v.
    destruct (possible_values s g i j (values s)) as [p| |]; simpl;
      try discriminate.
    destruct (_ <? _); [|now intros [= <-]].
    destruct (_ =? _); intros [= <-]; [exact Hget|].
    intros x [= <-]. exact Hget.
Qed.

(** The candidate loop: when every failing recursive call gives its board
    back, so does a failing loop. *)
Lemma try_values_restores
    (solve : telemetry -> grid -> result (bool * telemetry * grid))
    row col nums t g t' g' :
  (forall t0 g0 t1 g1, solve t0 g0 = Ret (false, t1, g1) -> g1 = g0) ->
  get_cell g row col = Ret 0%Z ->
  try_values s solve row col nums t g = Ret (false, t', g') -> g' = g.
Proof.
  intros Hsolve Hget. unfold try_values.
  destruct (for_loop _ _ _) as [c| |] eqn:Hloop; simpl; try discriminate.
  apply (for_loop_ind (fun st => snd st = g) (fun _ => True)) in Hloop;
    [|reflexivity|].
  - destruct c as [st|st]; [|discriminate]. now intros [= _ <-].
  - clear -Hsolve Hget. intros num [t0 g0] c _ Hst. simpl in Hst. subst g0.
    unfold try_step. simpl.
    destruct (is_valid s g row col num) as [ok| |]; simpl; try discriminate.
    destruct ok; [|now intros [= <-]].
    destruct (set_cell g row col num) as [g1| |] eqn:Hset; simpl;
      try discriminate.
    destruct (solve t0 g1) as [[[b t1] g2]| |] eqn:Hrec; simpl;
      try discriminate.
    destruct b; [now intros [= <-]|].
    apply Hsolve in Hrec. subst g2.
    destruct (set_cell g1 row col 0%Z) as [g3| |] eqn:Hset0; simpl;
      try discriminate.
    intros [= <-]. simpl.
    exact (set_cell_restore g g1 g3 row col 0%Z num Hget Hset Hset0).
Qed.

Lemma solve_with_mrv_restores fuel : forall t g t' g',
  solve_with_mrv expired s fuel t g = Ret (false, t', g') -> g' = g.
Proof.
  induction fuel as [|fuel IH]; intros t g t' g'; simpl; [discriminate|].
  destruct (expired (clock_reads t)); [now intros [= _ <-]|].
  destruct (find_best_empty s g) as [[[[row col] poss]|]| |] eqn:Hbest;
    simpl; try discriminate.
  apply try_values_restores; [exact IH|].
  exact (find_best_empty_some _ _ _ _ Hbest).
Qed.

Lemma solve_simple_restores fuel : forall t g t' g',
  solve_simple expired s fuel t g = Ret (false, t', g') -> g' = g.
Proof.
  induction fuel as [|fuel IH]; intros t g t' g'; simpl; [discriminate|].
  destruct (expired (clock_reads t)); [now intros [= _ <-]|].
  destruct (find_empty s g) as [[[row col]|]| |] eqn:Hempty;
    simpl; try discriminate.
  apply try_values_restores; [exact IH|].
  exact (find_empty_some _ _ _ Hempty).
Qed.

Lemma measure_performance_false fuel g use_mrv calls tle g' :
  measure_performance expired s fuel g use_mrv = Ret (false, calls, tle, g') ->
  g' = g.
Proof.
  unfold measure_performance.
  destruct (validate_board s g) as [[[ok m] gv]| |]; simpl; try discriminate.
  destruct ok; simpl; [|now intros [= _ _ <-]].
  destruct (if use_mrv then _ else _) as [[[b t'] gs]| |]; simpl;
    try discriminate.
  destruct b; simpl; [|now intros [= _ _ <-]].
  destruct (copy_back s g gs); simpl; discriminate.
Qed.

End Restore.

(** ** Valid boards, solutions, completions *)

Section Solutions.
Variable s : solver.
Implicit Types g sol : grid.

Hypothesis Hwc : well_configured s.

Lemma violation_None g i j : i < size s -> j < size s ->
  violation s g i j = None <-> cell_ok s g i j.
Proof.
  intros Hi Hj. unfold violation, cell_ok.
  destruct (bool_decide (0 <= cell g i j)%Z) eqn:H0;
    [apply bool_decide_eq_true in H0|apply bool_decide_eq_false in H0];
    simpl; [|split; [discriminate|lia]].
  destruct (bool_decide (cell g i j <= Z.of_nat (size s))%Z) eqn:H1;
    [apply bool_decide_eq_true in H1|apply bool_decide_eq_false in H1];
    simpl; [|split; [discriminate|lia]].
  destruct (bool_decide (cell g i j <> 0%Z)) eqn:Hz;
    [apply bool_decide_eq_true in Hz|apply bool_decide_eq_false in Hz];
    simpl.
  - destruct (validb s g i j (cell g i j)) eqn:Hv; simpl.
    + split; [|reflexivity]. intros _. split; [lia|]. intros _.
      now apply validb_true.
    + split; [discriminate|]. intros [_ H].
      assert (validb s g i j (cell g i j) = true) as Ht; [|congruence].
      apply validb_true; auto.
  - split; [|reflexivity]. intros _. split; [lia|]. intros Hn.
    now destruct Hz.
Qed.

Lemma validate_board_valid g :
  validate_board s g = Ret (true, ValidBoard, g) <-> valid_board s g.
Proof.
  split.
  - intros Hv. assert (wf s g) as Hwf.
    { apply dimensions_wf. unfold validate_board in Hv.
      destruct (_ || _); [discriminate|reflexivity]. }
    rewrite validate_board_pure in Hv by assumption.
    destruct (first_some _ _) eqn:Hfs; [discriminate|].
    pose proof (proj1 (first_some_None _ _) Hfs) as Hnone.
    split; [assumption|]. split.
    + intros i j Hi Hj.
      apply (violation_None g i j Hi Hj).
      apply (Hnone (i, j)). now apply elem_of_cells.
    + intros r c Hr Hc Hnz.
      apply (violation_None g r c Hr Hc); [|assumption].
      apply (Hnone (r, c)). now apply elem_of_cells.
  - intros (Hwf & Hrange & Hcons).
    rewrite validate_board_pure by assumption.
    destruct (first_some _ _) eqn:Hfs; [|reflexivity].
    assert (first_some (fun p => violation s g (fst p) (snd p)) (cells s)
            = None) as Hn; [|congruence].
    apply first_some_None. intros [i j] [Hi Hj]%elem_of_cells. simpl.
    apply violation_None; [assumption..|]. split; [now apply Hrange|].
    intros Hnz. now apply Hcons.
Qed.

(** On a valid board the completions are the solutions that keep its
    filled cells. *)
Lemma completion_solution g sol : in_range s g -> consistent s g ->
  completion s g sol <-> solution s sol /\ extends s g sol.
Proof.
  intros Hrange Hcons. split.
  - intros (Hwf & Hext & Hfill).
    assert (forall i j, i < size s -> j < size s ->
              (1 <= cell sol i j <= Z.of_nat (size s))%Z) as Hfull.
    { intros i j Hi Hj. destruct (decide (cell g i j = 0%Z)) as [Hz|Hz].
      - now apply Hfill.
      - rewrite Hext by assumption. specialize (Hrange i j Hi Hj). lia. }
    split; [|assumption]. split; [assumption|]. split; [assumption|].
    intros r c Hr Hc _ i j Hi Hj Hp.
    destruct (decide (cell g r c = 0%Z)) as [Hz|Hz].
    + destruct (Hfill r c Hr Hc Hz) as [_ Hv].
      exact (proj1 (validb_true s Hwc sol r c _ Hr Hc) Hv i j Hi Hj Hp).
    + destruct (decide (cell g i j = 0%Z)) as [Hz'|Hz'].
      * destruct (Hfill i j Hi Hj Hz') as [_ Hv]. intros He.
        apply (proj1 (validb_true s Hwc sol i j _ Hi Hj) Hv r c Hr Hc);
          [now apply peer_sym|congruence].
      * rewrite (Hext i j), (Hext r c) by assumption. now apply Hcons.
  - intros [(Hwf & Hfull & Hc) Hext]. split; [assumption|].
    split; [assumption|]. intros r c Hr Hcc Hz. split; [now apply Hfull|].
    apply validb_true; [assumption..|]. intros i j Hi Hj Hp.
    apply Hc; try assumption. specialize (Hfull r c Hr Hcc). lia.
Qed.

(** A completion's value at an empty cell is one the checker accepts on
    the board. *)
Lemma completion_valid g sol r c : r < size s -> c < size s ->
  completion s g sol -> cell g r c = 0%Z ->
  validb s g r c (cell sol r c) = true.
Proof.
  intros Hr Hc (Hwf & Hext & Hfill) Hz.
  destruct (Hfill r c Hr Hc Hz) as [Hrng Hv].
  apply validb_true; [assumption..|]. intros i j Hi Hj Hp He.
  assert (cell g i j <> 0%Z) as Hnz by lia.
  apply (proj1 (validb_true s Hwc sol r c _ Hr Hc) Hv i j Hi Hj Hp).
  rewrite (Hext i j) by assumption. exact He.
Qed.

Lemma completion_fill g sol r c : wf s g -> r < size s -> c < size s ->
  completion s g sol -> completion s (upd g r c (cell sol r c)) sol.
Proof.
  intros Hwfg Hr Hc (Hwf & Hext & Hfill). split; [assumption|]. split.
  - intros i j Hi Hj. rewrite (cell_upd s) by assumption.
    destruct (decide ((i, j) = (r, c))) as [[= -> ->]|Hne]; [reflexivity|].
    now apply Hext.
  - intros i j Hi Hj. rewrite (cell_upd s) by assumption.
    destruct (decide ((i, j) = (r, c))) as [[= -> ->]|Hne].
    + intros Hz. destruct (decide (cell g r c = 0%Z)) as [Hz'|Hz'].
      * now apply Hfill.
      * rewrite (Hext r c) in Hz by assumption. contradiction.
    + now apply Hfill.
Qed.

Lemma completion_unfill g sol r c v : wf s g -> r < size s -> c < size s ->
  cell g r c = 0%Z -> (1 <= v <= Z.of_nat (size s))%Z ->
  validb s g r c v = true ->
  completion s (upd g r c v) sol -> completion s g sol.
Proof.
  intros Hwfg Hr Hc Hz Hv Hok (Hwf & Hext & Hfill).
  assert (cell sol r c = v) as Hsol.
  { rewrite (Hext r c) by (rewrite ?(cell_upd_eq s); assumption || lia).
    now apply (cell_upd_eq s). }
  split; [assumption|]. split.
  - intros i j Hi Hj Hnz.
    assert ((i, j) <> (r, c)) as Hne by congruence.
    rewrite (Hext i j) by (rewrite ?(cell_upd_ne s); assumption).
    now apply (cell_upd_ne s).
  - intros i j Hi Hj Hz'.
    destruct (decide ((i, j) = (r, c))) as [[= -> ->]|Hne].
    + rewrite Hsol. split; [assumption|].
      apply validb_true; [assumption..|]. intros i j Hi' Hj' Hp He.
      destruct (decide (cell g i j = 0%Z)) as [Hzz|Hzz].
      * assert (cell (upd g r c v) i j = 0%Z) as Hu
          by (rewrite (cell_upd_ne s); assumption || apply Hp).
        destruct (Hfill i j Hi' Hj' Hu) as [_ Hvv].
        apply (proj1 (validb_true s Hwc sol i j _ Hi' Hj') Hvv r c Hr Hc);
          [now apply peer_sym|congruence].
      * assert (cell sol i j = cell g i j) as Hs.
        { rewrite (Hext i j) by
            (rewrite ?(cell_upd_ne s); assumption || apply Hp).
          apply (cell_upd_ne s); assumption || apply Hp. }
        apply (proj1 (validb_true s Hwc g r c _ Hr Hc) Hok i j Hi' Hj' Hp).
        congruence.
    + apply Hfill; try assumption.
      now rewrite (cell_upd_ne s) by assumption.
Qed.

Lemma completion_full g : wf s g ->
  (forall i j, i < size s -> j < size s -> cell g i j <> 0%Z) ->
  completion s g g.
Proof.
  intros Hwf Hnz. split; [assumption|]. split; [now intros i j _ _ _|].
  intros r c Hr Hc Hz. now destruct (Hnz r c Hr Hc).
Qed.

End Solutions.

(** ** The search terminates and decides solvability *)

Lemma filter_length_mono {A} (f f' : A -> bool) xs :
  (forall y, y ∈ xs -> f' y = true -> f y = true) ->
  length (List.filter f' xs) <= length (List.filter f xs).
Proof.
  induction xs as [|y xs IH]; intros H; simpl; [lia|].
  assert (length (List.filter f' xs) <= length (List.filter f xs)) as Hle.
  { apply IH. intros z Hz. apply H. now right. }
  destruct (f' y) eqn:E'.
  - rewrite (H y) by (left || assumption). simpl. lia.
  - destruct (f y); simpl; lia.
Qed.

Lemma filter_length_lt {A} (f f' : A -> bool) xs x :
  (forall y, y ∈ xs -> f' y = true -> f y = true) ->
  x ∈ xs -> f x = true -> f' x = false ->
  length (List.filter f' xs) < length (List.filter f xs).
Proof.
  induction xs as [|y xs IH]; intros H Hx Hf Hf'; [inversion Hx|].
  simpl. apply elem_of_cons in Hx as [<-|Hx].
  - rewrite Hf, Hf'. simpl.
    assert (length (List.filter f' xs) <= length (List.filter f xs)); [|lia].
    apply filter_length_mono. intros z Hz. apply H. now right.
  - assert (length (List.filter f' xs) < length (List.filter f xs)) as Hlt.
    { apply IH; try assumption. intros z Hz. apply H. now right. }
    destruct (f' y) eqn:E'.
    + rewrite (H y) by (left || assumption). simpl. lia.
    + destruct (f y); simpl; lia.
Qed.

Section Zeros.
Variable s : solver.
Implicit Types g : grid.

Lemma zeros_upd g r c v : wf s g -> r < size s -> c < size s ->
  cell g r c = 0%Z -> v <> 0%Z -> zeros s (upd g r c v) < zeros s g.
Proof.
  intros Hwf Hr Hc Hz Hv. unfold zeros.
  apply (filter_length_lt _ _ _ (r, c)).
  - intros [i j] _. simpl. rewrite (cell_upd s) by assumption.
    destruct (decide ((i, j) = (r, c))) as [[= -> ->]|]; [|auto].
    intros H%bool_decide_eq_true. contradiction.
  - now apply elem_of_cells.
  - now apply bool_decide_eq_true.
  - simpl. rewrite (cell_upd_eq s) by assumption.
    now apply bool_decide_eq_false.
Qed.

Lemma zeros_positive g r c : r < size s -> c < size s ->
  cell g r c = 0%Z -> 0 < zeros s g.
Proof.
  intros Hr Hc Hz. unfold zeros.
  destruct (List.filter _ _) as [|p l] eqn:E; [|simpl; lia].
  assert (In (r, c) []) as [].
  rewrite <- E. apply filter_In. split.
  - now apply list_elem_of_In, elem_of_cells.
  - now apply bool_decide_eq_true.
Qed.

Lemma cells_length : length (cells s) = size s * size s.
Proof.
  unfold cells.
  assert (forall (xs ys : list nat),
            length (flat_map (fun i => map (pair i) ys) xs)
            = length xs * length ys) as Hlen.
  { induction xs as [|x xs IH]; intros ys; simpl; [reflexivity|].
    rewrite length_app, length_map, IH. reflexivity. }
  rewrite Hlen. unfold range. rewrite length_seq. lia.
Qed.

Lemma zeros_bound g : zeros s g <= size s * size s.
Proof. unfold zeros. rewrite <- cells_length. apply filter_length_le. Qed.

End Zeros.

Section Decide.
Variable expired : nat -> bool.
Variable s : solver.
Hypothesis Hwc : well_configured s.
Hypothesis Hclock : forall k, expired k = false.
Implicit Types g : grid.

Lemma try_loop_decides solve n row col g nums :
  decides s solve n -> wf s g -> row < size s -> col < size s ->
  cell g row col = 0%Z -> zeros s g <= S n ->
  (forall v, v ∈ nums -> (1 <= v <= Z.of_nat (size s))%Z) ->
  forall t, exists c,
    for_loop nums (t, g) (try_step s solve row col) = Ret c /\
    match c with
    | Break st =>
        time_limit_exceeded (fst st) = time_limit_exceeded t /\
        completion s g (snd st)
    | Next st =>
        time_limit_exceeded (fst st) = time_limit_exceeded t /\
        snd st = g /\
        forall sol, completion s g sol -> cell sol row col ∉ nums
    end.
Proof.
  intros Hsolve Hwf Hr Hc Hz Hn.
  induction nums as [|num nums IH]; intros Hnums t; simpl.
  - eexists. split; [reflexivity|]. simpl. repeat split.
    intros sol _ Hin. inversion Hin.
  - assert (forall v, v ∈ nums -> (1 <= v <= Z.of_nat (size s))%Z) as Hnums'
      by (intros v Hv; apply Hnums; now right).
    specialize (IH Hnums').
    assert (1 <= num <= Z.of_nat (size s))%Z as Hnum by (apply Hnums; left).
    unfold try_step at 1. simpl.
    rewrite is_valid_validb by assumption. simpl.
    destruct (validb s g row col num) eqn:Hok.
    + rewrite (set_cell_wf s) by assumption. simpl.
      destruct (Hsolve t (upd g row col num)) as (b & t' & g' & -> & Ht & Hb1 & Hb0).
      { now apply upd_wf. }
      { pose proof (zeros_upd s g row col num Hwf Hr Hc Hz). lia. }
      simpl. destruct b.
      * eexists. split; [reflexivity|]. simpl. split; [assumption|].
        apply (completion_unfill s Hwc g g' row col num); auto.
      * destruct (Hb0 eq_refl) as [-> Hno].
        rewrite (set_cell_wf s) by (try apply upd_wf; assumption). simpl.
        pose proof (upd_restore s g row col num Hwf Hr Hc) as Hback.
        rewrite Hz in Hback. rewrite Hback.
        destruct (IH t') as (c & -> & Hc'). eexists. split; [reflexivity|].
        destruct c as [st|st].
        -- destruct Hc' as (Ht' & Hg & Hsol). repeat split;
             [congruence|assumption|].
           intros sol Hcomp Hin. apply elem_of_cons in Hin as [He|Hin].
           ++ apply (Hno sol). rewrite <- He.
              now apply completion_fill.
           ++ now apply (Hsol sol).
        -- destruct Hc' as [Ht' Hcomp]. split; [congruence|assumption].
    + simpl. destruct (IH t) as (c & -> & Hc').
      eexists. split; [reflexivity|].
      destruct c as [st|st]; [|assumption].
      destruct Hc' as (Ht' & Hg & Hsol). repeat split; [assumption..|].
      intros sol Hcomp Hin. apply elem_of_cons in Hin as [He|Hin].
      * pose proof (completion_valid s Hwc g sol row col Hr Hc Hcomp Hz).
        congruence.
      * now apply (Hsol sol).
Qed.

Lemma try_values_decides solve n row col g nums t :
  decides s solve n -> wf s g -> row < size s -> col < size s ->
  cell g row col = 0%Z -> zeros s g <= S n ->
  (forall v, v ∈ nums -> (1 <= v <= Z.of_nat (size s))%Z) ->
  exists b t' g', try_values s solve row col nums t g = Ret (b, t', g') /\
    time_limit_exceeded t' = time_limit_exceeded t /\
    (b = true -> completion s g g') /\
    (b = false -> g' = g /\
       forall sol, completion s g sol -> cell sol row col ∉ nums).
Proof.
  intros Hsolve Hwf Hr Hc Hz Hn Hnums. unfold try_values.
  destruct (try_loop_decides solve n row col g nums Hsolve Hwf Hr Hc Hz Hn
              Hnums t) as (c & -> & Hc').
  simpl. destruct c as [st|st].
  - exists false, (fst st), (snd st). split; [reflexivity|].
    destruct Hc' as (Ht & Hg & Hsol). split; [assumption|].
    split; [discriminate|]. intros _. now split.
  - exists true, (fst st), (snd st). split; [reflexivity|].
    destruct Hc' as (Ht & Hcomp). split; [assumption|].
    split; [now intros _|discriminate].
Qed.

Lemma find_empty_spec g : wf s g ->
  exists o, find_empty s g = Ret o /\
    match o with
    | None => forall i j, i < size s -> j < size s -> cell g i j <> 0%Z
    | Some (r, c) => r < size s /\ c < size s /\ cell g r c = 0%Z
    end.
Proof.
  intros Hwf. rewrite (find_empty_pure s) by assumption.
  eexists. split; [reflexivity|].
  destruct (first_some _ _) as [[r c]|] eqn:E.
  - apply first_some_Some in E as (b & [i j] & a & Hall & Hx & _).
    unfold empty_at in Hx. simpl in Hx.
    destruct (bool_decide (cell g i j = 0%Z)) eqn:Hz; [|discriminate].
    apply bool_decide_eq_true in Hz. injection Hx as -> ->.
    assert ((r, c) ∈ cells s) as [Hr Hc]%elem_of_cells.
    { rewrite Hall. apply elem_of_app. right. left. }
    auto.
  - intros i j Hi Hj Hz.
    pose proof (proj1 (first_some_None _ _) E (i, j)) as Hn.
    unfold empty_at in Hn. simpl in Hn.
    rewrite (bool_decide_eq_true_2 _ Hz) in Hn.
    discriminate Hn. now apply elem_of_cells.
Qed.

Lemma solve_simple_decides n : decides s (solve_simple expired s (S n)) n.
Proof.
  induction n as [|n IH]; intros t g Hwf Hn;
    change (solve_simple expired s (S ?f) t g)
      with (if expired (clock_reads t)
            then Ret (false, set_exceeded (tick t), g)
            else
              let t := count_call (tick t) in
              let* empty := find_empty s g in
              match empty with
              | None => Ret (true, t, g)
              | Some (row, col) =>
                  try_values s (solve_simple expired s f) row col
                    (values s) t g
              end);
    rewrite Hclock; cbv zeta;
    destruct (find_empty_spec g Hwf) as ([[r c]|] & -> & Ho); cbn [rbind].
  - destruct Ho as (Hr & Hc & Hz).
    pose proof (zeros_positive s g r c Hr Hc Hz). lia.
  - exists true, (count_call (tick t)), g. split; [reflexivity|].
    split; [reflexivity|]. split; [|discriminate].
    intros _. now apply completion_full.
  - destruct Ho as (Hr & Hc & Hz).
    destruct (try_values_decides _ n r c g (values s) (count_call (tick t))
                IH Hwf Hr Hc Hz Hn) as (b & t' & g' & -> & Ht & Hb1 & Hb0).
    { intros v. apply elem_of_values. }
    exists b, t', g'. split; [reflexivity|]. split; [assumption|].
    split; [assumption|]. intros Hb. destruct (Hb0 Hb) as [-> Hno].
    split; [reflexivity|]. intros sol Hcomp. apply (Hno sol Hcomp).
    apply elem_of_values. now apply Hcomp.
  - exists true, (count_call (tick t)), g. split; [reflexivity|].
    split; [reflexivity|]. split; [|discriminate].
    intros _. now apply completion_full.
Qed.

Lemma solve_with_mrv_decides n : decides s (solve_with_mrv expired s (S n)) n.
Proof.
  induction n as [|n IH]; intros t g Hwf Hn;
    change (solve_with_mrv expired s (S ?f) t g)
      with (if expired (clock_reads t)
            then Ret (false, set_exceeded (tick t), g)
            else
              let t := count_call (tick t) in
              let* best_cell := find_best_empty s g in
              match best_cell with
              | None => Ret (true, t, g)
              | Some (row, col, possible_values) =>
                  try_values s (solve_with_mrv expired s f) row col
                    possible_values t g
              end);
    rewrite Hclock; cbv zeta;
    destruct (find_best_empty_chosen s g Hwc Hwf)
      as ([[[r c] poss]|] & -> & Hnone & Hsome); cbn [rbind].
  - destruct (Hsome _ eq_refl) as (_ & Hz & b & a & Hall & _). simpl in *.
    assert ((r, c) ∈ cells s) as [Hr Hc]%elem_of_cells.
    { rewrite Hall. apply elem_of_app. right. left. }
    pose proof (zeros_positive s g r c Hr Hc Hz). lia.
  - exists true, (count_call (tick t)), g. split; [reflexivity|].
    split; [reflexivity|]. split; [|discriminate].
    intros _. apply completion_full; [assumption|]. now apply Hnone.
  - destruct (Hsome _ eq_refl) as (Hposs & Hz & bf & af & Hall & _).
    simpl in *.
    assert ((r, c) ∈ cells s) as [Hr Hc]%elem_of_cells.
    { rewrite Hall. apply elem_of_app. right. left. }
    destruct (try_values_decides _ n r c g poss (count_call (tick t))
                IH Hwf Hr Hc Hz Hn) as (b & t' & g' & -> & Ht & Hb1 & Hb0).
    { intros v Hv. subst poss. now apply elem_of_candidates in Hv. }
    exists b, t', g'. split; [reflexivity|]. split; [assumption|].
    split; [assumption|]. intros Hb. destruct (Hb0 Hb) as [-> Hno].
    split; [reflexivity|]. intros sol Hcomp. apply (Hno sol Hcomp).
    subst poss. apply elem_of_candidates. split.
    + now apply Hcomp.
    + now apply completion_valid.
  - exists true, (count_call (tick t)), g. split; [reflexivity|].
    split; [reflexivity|]. split; [|discriminate].
    intros _. apply completion_full; [assumption|]. now apply Hnone.
Qed.

End Decide.

(** ** The whole run *)

Section Run.
Variable expired : nat -> bool.
Variable s : solver.
Hypothesis Hwc : well_configured s.
Implicit Types g : grid.

Lemma copy_scan g' cs : forall st,
  (forall i j, (i, j) ∈ cs -> i < size s /\ j < size s) -> wf s st ->
  exists st',
    pure_loop (R := unit)
      (fun p st => Next (upd st (fst p) (snd p) (cell g' (fst p) (snd p))))
      cs st = Next st' /\
    wf s st' /\
    forall i j, i < size s -> j < size s ->
      cell st' i j = if decide ((i, j) ∈ cs) then cell g' i j else cell st i j.
Proof.
  induction cs as [|[i0 j0] cs IH]; intros st Hcs Hwf; simpl.
  - exists st. split; [reflexivity|]. split; [assumption|]. intros i j _ _.
    destruct (decide ((i, j) ∈ [])) as [Hin|]; [inversion Hin|reflexivity].
  - destruct (Hcs i0 j0) as [Hi0 Hj0]; [left|].
    destruct (IH (upd st i0 j0 (cell g' i0 j0))) as (st' & -> & Hwf' & Hc).
    { intros i j Hin. apply Hcs. now right. }
    { now apply upd_wf. }
    exists st'. split; [reflexivity|]. split; [assumption|]. intros i j Hi Hj.
    rewrite Hc by assumption. rewrite (cell_upd s) by assumption.
    destruct (decide ((i, j) ∈ cs)) as [Hin|Hnin].
    + rewrite decide_True; [reflexivity|now right].
    + destruct (decide ((i, j) = (i0, j0))) as [[= -> ->]|Hne].
      * rewrite decide_True; [reflexivity|left].
      * rewrite decide_False; [reflexivity|].
        intros [?|?]%elem_of_cons; contradiction.
Qed.

Lemma copy_back_wf g g' : wf s g -> wf s g' -> copy_back s g g' = Ret g'.
Proof.
  intros Hwf Hwf'. unfold copy_back.
  rewrite (for_loop_pure (R := unit) _ _
    (fun i st => pure_loop
       (fun j st => Next (upd st i j (cell g' i j))) (range 0 (size s)) st)
    (wf s)); [|assumption| |].
  - rewrite (pure_loop_nested
      (fun i j (st : grid) => Next (R := unit) (upd st i j (cell g' i j)))).
    fold (cells s).
    destruct (copy_scan g' (cells s) g) as (st' & -> & Hwfs & Hc);
      [intros i j; apply elem_of_cells|assumption|].
    simpl. f_equal. apply (grid_ext s); [assumption..|].
    intros i j Hi Hj. rewrite Hc by assumption.
    rewrite decide_True; [reflexivity|now apply elem_of_cells].
  - intros i st Hi%elem_of_range Hst.
    apply (for_loop_pure _ _ _ (wf s)); [assumption| |].
    + intros j st' Hj%elem_of_range Hst'.
      rewrite (get_cell_wf s) by (assumption || lia). simpl.
      rewrite (set_cell_wf s) by (assumption || lia). reflexivity.
    + intros j st0 st1 _ Hst0 [= <-]. now apply upd_wf.
  - intros i st st' Hi%elem_of_range Hst.
    rewrite <- (pure_loop_map (pair i)
      (fun p st => Next (upd st (fst p) (snd p) (cell g' (fst p) (snd p))))).
    destruct (copy_scan g' (map (pair i) (range 0 (size s))) st)
      as (st2 & -> & Hwf2 & _); [|assumption|now intros [= <-]].
    intros i' j' Hin. apply list_elem_of_fmap in Hin as (j & [= -> ->] & Hj).
    apply elem_of_range in Hj. lia.
Qed.

Hypothesis Hclock : forall k, expired k = false.

(** With a deadline that is never exceeded, [measure_performance] on a
    valid board returns, without the timeout flag, and its answer says
    whether the board can be solved. *)
Lemma measure_performance_decides fuel g use_mrv :
  valid_board s g -> size s * size s < fuel ->
  exists b calls g',
    measure_performance expired s fuel g use_mrv = Ret (b, calls, false, g') /\
    (b = true -> solution s g' /\ extends s g g') /\
    (b = false -> g' = g /\ ~ solvable s g).
Proof.
  intros Hvalid Hfuel. pose proof Hvalid as (Hwf & Hrange & Hcons).
  unfold measure_performance.
  rewrite (proj2 (validate_board_valid s Hwc g) Hvalid). simpl.
  destruct fuel as [|n]; [lia|].
  assert (exists b t' g',
            (if use_mrv then solve_with_mrv expired s (S n) (Telemetry 0 0 false) g
             else solve_simple expired s (S n) (Telemetry 0 0 false) g)
            = Ret (b, t', g') /\
            time_limit_exceeded t' = false /\
            (b = true -> completion s g g') /\
            (b = false -> g' = g /\ forall sol, ~ completion s g sol))
    as (b & t' & g' & -> & Ht & Hb1 & Hb0).
  { pose proof (zeros_bound s g) as Hz.
    destruct use_mrv.
    - apply (solve_with_mrv_decides expired s Hwc Hclock n); [assumption|lia].
    - apply (solve_simple_decides expired s Hwc Hclock n); [assumption|lia]. }
  simpl. destruct b; simpl.
  - pose proof (Hb1 eq_refl) as Hcomp.
    rewrite copy_back_wf by (assumption || apply Hcomp). simpl.
    exists true, (recursive_calls t'), g'. rewrite Ht.
    split; [reflexivity|]. split; [|discriminate]. intros _.
    now apply completion_solution.
  - destruct (Hb0 eq_refl) as [-> Hno].
    exists false, (recursive_calls t'), g. rewrite Ht.
    split; [reflexivity|]. split; [discriminate|]. intros _.
    split; [reflexivity|]. intros (sol & Hsol & Hext).
    apply (Hno sol). now apply completion_solution.
Qed.

Lemma solution_valid g : solution s g -> valid_board s g.
Proof.
  intros (Hwf & Hfull & Hcons). split; [assumption|]. split; [|assumption].
  intros i j Hi Hj. specialize (Hfull i j Hi Hj). lia.
Qed.

Lemma solution_is_valid g i j : solution s g -> i < size s -> j < size s ->
  is_valid s g i j (cell g i j) = Ret true.
Proof.
  intros (Hwf & Hfull & Hcons) Hi Hj.
  rewrite is_valid_validb by assumption. f_equal.
  apply validb_true; [assumption..|]. intros i' j' Hi' Hj' Hp.
  apply Hcons; try assumption. specialize (Hfull i j Hi Hj). lia.
Qed.

End Run.

(** ** Checking a solution by computation *)

Lemma extends_check s (g sol : grid) :
  forallb (fun p => bool_decide (cell g (fst p) (snd p) = 0%Z)
                    || bool_decide (cell sol (fst p) (snd p)
                                    = cell g (fst p) (snd p)))
    (cells s) = true ->
  extends s g sol.
Proof.
  intros H i j Hi Hj Hnz.
  pose proof (proj1 (forallb_forall _ _) H (i, j)) as Hp. simpl in Hp.
  rewrite (bool_decide_eq_false_2 _ Hnz) in Hp. simpl in Hp.
  apply (bool_decide_eq_true_1 _ (Hp (proj1 (list_elem_of_In _ _)
           (proj2 (elem_of_cells s i j) (conj Hi Hj))))).
Qed.

Lemma solution_check s (sol : grid) : well_configured s ->
  validate_board s sol = Ret (true, ValidBoard, sol) ->
  forallb (fun p => negb (bool_decide (cell sol (fst p) (snd p) = 0%Z)))
    (cells s) = true ->
  solution s sol.
Proof.
  intros Hwc Hv Hf.
  apply (validate_board_valid s Hwc) in Hv as (Hwf & Hrange & Hcons).
  split; [assumption|]. split; [|assumption]. intros i j Hi Hj.
  pose proof (proj1 (forallb_forall _ _) Hf (i, j)) as Hp. simpl in Hp.
  assert (cell sol i j <> 0%Z) as Hnz.
  { apply (bool_decide_eq_false_1 (cell sol i j = 0%Z)).
    apply negb_true_iff, Hp.
    now apply list_elem_of_In, elem_of_cells. }
  specialize (Hrange i j Hi Hj). lia.
Qed.

(** * The claims *)

(** C1.  On a valid board that has a solution, with a deadline that is never
    exceeded, [measure_performance] with either strategy returns [True]
    without the timeout flag (fuel above the number of cells is enough for
    the model to get there); the board it hands back keeps the given cells,
    has every cell filled with a value of 1..N that [is_valid] accepts
    against the rest of the board, and passes [validate_board]. *)
Theorem solve_solvable_board expired s (board : grid) use_mrv fuel :
  well_configured s -> (forall k, expired k = false) ->
  valid_board s board -> solvable s board -> size s * size s < fuel ->
  exists calls solved,
    measure_performance expired s fuel board use_mrv
    = Ret (true, calls, false, solved) /\
    extends s board solved /\
    (forall i j, i < size s -> j < size s ->
       (1 <= cell solved i j <= Z.of_nat (size s))%Z /\
       is_valid s solved i j (cell solved i j) = Ret true) /\
    validate_board s solved = Ret (true, ValidBoard, solved).
Proof.
  intros Hwc Hclock Hvalid Hsolvable Hfuel.
  destruct (measure_performance_decides expired s Hwc Hclock fuel board
              use_mrv Hvalid Hfuel) as (b & calls & g' & Hrun & Hb1 & Hb0).
  destruct b.
  - destruct (Hb1 eq_refl) as [Hsol Hext].
    exists calls, g'. split; [assumption|]. split; [assumption|]. split.
    + intros i j Hi Hj. split.
      * now apply Hsol.
      * now apply solution_is_valid.
    + apply (validate_board_valid s Hwc). now apply solution_valid.
  - destruct (Hb0 eq_refl) as [_ Hno]. contradiction.
Qed.

(** The 4x4 board of the test cases, solved by simple backtracking. *)
Lemma solve_solvable_board_witness :
  exists calls solved,
    measure_performance never s4 17 board4 false
    = Ret (true, calls, false, solved) /\
    extends s4 board4 solved /\
    (forall i j, i < 4 -> j < 4 ->
       (1 <= cell solved i j <= 4)%Z /\
       is_valid s4 solved i j (cell solved i j) = Ret true) /\
    validate_board s4 solved = Ret (true, ValidBoard, solved).
Proof.
  apply (solve_solvable_board never s4 board4 false 17).
  - reflexivity.
  - reflexivity.
  - apply (validate_board_valid s4); reflexivity.
  - exists solved4. split.
    + apply solution_check; reflexivity.
    + apply extends_check. reflexivity.
  - simpl. lia.
Defined.

(** C2 as stated fails.  The deadline is exceeded from the second reading of
    the clock on: [solve_simple] on the 4x4 board passes its own check,
    places 3 at (0,1) and calls itself, and that call times out.  The claim
    has the run end there with the 3 on the board; the code removes the 3,
    tries 4 (a third reading of the clock), removes it too, and returns
    [False] with the board as it was at entry. *)
Lemma timed_out_counterexample :
  expires_after 1 0 = false /\ expires_after 1 1 = true /\
  is_valid s4 board4 0 1 3%Z = Ret true /\
  exists t',
    solve_simple (expires_after 1) s4 17 (Telemetry 0 0 false) board4
    = Ret (false, t', board4) /\
    time_limit_exceeded t' = true /\
    clock_reads t' = 3 /\
    measure_performance (expires_after 1) s4 17 board4 false
    = Ret (false, 1, true, board4).
Proof.
  split; [reflexivity|]. split; [reflexivity|]. split; [reflexivity|].
  exists (Telemetry 1 3 true). repeat split; reflexivity.
Qed.

(** C2, as the code has it.  A call that finds the deadline exceeded sets
    the timeout flag and returns [False], the board untouched; the calls
    around it take that [False] for a dead end, undo their assignment and go
    on with their other candidates.  So whenever [solve_with_mrv] or
    [solve_simple] returns [False] with the timeout flag set, the board is
    the board at entry to that call, and [measure_performance] leaves the
    caller's board as it was. *)
Theorem timed_out_board_restored expired s use_mrv fuel t (board : grid) :
  (expired (clock_reads t) = true ->
   solve expired s use_mrv (S fuel) t board
   = Ret (false, set_exceeded (tick t), board)) /\
  (forall t' board',
     solve expired s use_mrv fuel t board = Ret (false, t', board') ->
     time_limit_exceeded t' = true ->
     board' = board) /\
  (forall calls caller_board,
     measure_performance expired s fuel board use_mrv
     = Ret (false, calls, true, caller_board) ->
     caller_board = board).
Proof.
  split; [|split].
  - intros Hexp. destruct use_mrv; simpl; now rewrite Hexp.
  - intros t' board' Hsolve _. destruct use_mrv; simpl in Hsolve.
    + exact (solve_with_mrv_restores expired s fuel t board t' board' Hsolve).
    + exact (solve_simple_restores expired s fuel t board t' board' Hsolve).
  - intros calls gm. apply measure_performance_false.
Qed.

(** The 4x4 board with the deadline exceeded from the second reading of the
    clock on: a call made after the first reading returns at once; the MRV
    search started before it places 2 at (0,3), times out below it, and
    returns the board as it was. *)
Lemma timed_out_board_restored_witness :
  solve (expires_after 1) s4 true 17 (Telemetry 1 1 false) board4
  = Ret (false, Telemetry 1 2 true, board4) /\
  (solve (expires_after 1) s4 true 17 (Telemetry 0 0 false) board4
   = Ret (false, Telemetry 1 2 true, board4) /\ board4 = board4) /\
  forall calls caller_board,
    measure_performance (expires_after 1) s4 17 board4 true
    = Ret (false, calls, true, caller_board) ->
    caller_board = board4.
Proof.
  split; [|split; [split; [reflexivity|]|]].
  - apply (proj1 (timed_out_board_restored (expires_after 1) s4 true 16
                    (Telemetry 1 1 false) board4)).
    reflexivity.
  - apply (proj1 (proj2 (timed_out_board_restored (expires_after 1) s4 true 17
                           (Telemetry 0 0 false) board4))
             (Telemetry 1 2 true) board4); reflexivity.
  - apply (proj2 (proj2 (timed_out_board_restored (expires_after 1) s4 true 17
                           (Telemetry 0 0 false) board4))).
Defined.

(** C3.  Whenever [solve_with_mrv] or [solve_simple], at any depth of the
    recursion, returns [False] without the timeout flag, the board is the
    board at entry to that call; and [measure_performance] then leaves the
    caller's board as it was. *)
Theorem exhausted_board_restored expired s use_mrv fuel t (board : grid) t' board' :
  solve expired s use_mrv fuel t board = Ret (false, t', board') ->
  time_limit_exceeded t' = false ->
  board' = board /\
  forall calls caller_board,
    measure_performance expired s fuel board use_mrv
    = Ret (false, calls, false, caller_board) ->
    caller_board = board.
Proof.
  intros Hsolve _. split.
  - destruct use_mrv; simpl in Hsolve.
    + exact (solve_with_mrv_restores expired s fuel t board t' board' Hsolve).
    + exact (solve_simple_restores expired s fuel t board t' board' Hsolve).
  - intros calls gm. apply measure_performance_false.
Qed.

(** A valid 4x4 board without a solution, on which the simple search
    backtracks: it places 3 at (0,2), finds no value for (0,3), removes the
    3, places 4, finds no value for (0,3) again, removes the 4, and returns
    [False] with the board as it was. *)
Lemma exhausted_board_restored_witness :
  solve never s4 false 17 (Telemetry 0 0 false) stuck4
  = Ret (false, Telemetry 3 3 false, stuck4) /\
  stuck4 = stuck4 /\
  forall calls caller_board,
    measure_performance never s4 17 stuck4 false
    = Ret (false, calls, false, caller_board) ->
    caller_board = stuck4.
Proof.
  split; [reflexivity|].
  apply (exhausted_board_restored never s4 false 17 (Telemetry 0 0 false)
           stuck4 (Telemetry 3 3 false) stuck4); reflexivity.
Defined.

(** C4 as stated fails: 5 has no integer square root, and the constructor
    returns a solver of size 5 with box size 2. *)
Lemma init_counterexample :
  (forall b : Z, (b * b)%Z <> 5%Z) /\ init 5 = Some (Ret (Solver 5 2)).
Proof.
  split; [|reflexivity]. intros b Hb.
  assert (-3 < b < 3)%Z as Hrange by nia.
  assert (b = -2 \/ b = -1 \/ b = 0 \/ b = 1 \/ b = 2)%Z
    as [->|[->|[->|[->| ->]]]] by lia; discriminate Hb.
Qed.

(** C4, as the code has it.  The constructor checks nothing: for every size
    N with 0 <= N < 2^32, whether or not N has an integer square root, it
    returns a solver of that size whose box size B is the integer part of
    the square root of N, so B * B <= N < (B + 1) * (B + 1), and B * B = N
    exactly when N is a perfect square.  Nothing is said of larger
    sizes. *)
Theorem init_succeeds n : (0 <= n < exact_root_bound)%Z ->
  exists s, init n = Some (Ret s) /\ size s = Z.to_nat n /\
    subgrid_size s * subgrid_size s <= size s
      < (subgrid_size s + 1) * (subgrid_size s + 1) /\
    (well_configured s <-> exists b : Z, (0 <= b)%Z /\ (b * b)%Z = n).
Proof.
  intros [Hn Hbound]. unfold init.
  destruct (Z.ltb_spec n 0) as [|_]; [lia|].
  destruct (Z.ltb_spec n exact_root_bound) as [_|]; [|lia].
  eexists. split; [reflexivity|]. simpl. split; [reflexivity|].
  pose proof (Z.sqrt_spec n Hn) as Hs. pose proof (Z.sqrt_nonneg n) as Hb.
  cbv zeta in Hs. split; [nia|]. unfold well_configured. simpl. split.
  - intros H. exists (Z.sqrt n). split; [assumption|]. nia.
  - intros (b & Hb0 & <-). rewrite Z.sqrt_square by assumption. nia.
Qed.

(** Size 5: the solver is built, with box size 2. *)
Lemma init_succeeds_witness :
  exists s, init 5 = Some (Ret s) /\ size s = Z.to_nat 5 /\
    subgrid_size s * subgrid_size s <= size s
      < (subgrid_size s + 1) * (subgrid_size s + 1) /\
    (well_configured s <-> exists b : Z, (0 <= b)%Z /\ (b * b)%Z = 5%Z).
Proof. apply (init_succeeds 5). unfold exact_root_bound. lia. Defined.

(** C5 as stated fails: on this valid board the first empty cell, (0,0), has
    no candidate, and [find_best_empty] selects it, with an empty candidate
    set, although the empty cell (0,3) has the two candidates 3 and 4: the
    size of the selected set is not a nonzero one. *)
Lemma find_best_empty_counterexample :
  validate_board s4 dead4 = Ret (true, ValidBoard, dead4) /\
  find_best_empty s4 dead4 = Ret (Some (0, 0, [])) /\
  cell dead4 0 3 = 0%Z /\ candidates s4 dead4 0 3 = [3; 4]%Z.
Proof. repeat split; reflexivity. Qed.

(** C5, as the code has it.  On an N x N board of a solver whose box size
    squares to N, [find_best_empty] returns [None] exactly when no cell is
    empty.  Otherwise it returns an empty cell with its candidate set, the
    values of 1..N that [is_valid] accepts there, in ascending order,
    possibly none; every empty cell before it in the row-major scan has
    more candidates than it and at least two; and when it has two
    candidates or more, no empty cell after it has fewer.  So the cell is
    the first empty cell with at most one candidate when there is one (the
    scan stops at a cell with exactly one; a cell with none is kept to the
    end), and else the first empty cell with the fewest. *)
Theorem find_best_empty_selects s (board : grid) :
  well_configured s -> wf s board ->
  exists best_cell, find_best_empty s board = Ret best_cell /\
    (best_cell = None <->
     forall i j, i < size s -> j < size s -> cell board i j <> 0%Z) /\
    forall row col possible, best_cell = Some (row, col, possible) ->
      row < size s /\ col < size s /\ cell board row col = 0%Z /\
      (forall num, num ∈ possible <->
         (1 <= num <= Z.of_nat (size s))%Z /\
         is_valid s board row col num = Ret true) /\
      StronglySorted Z.lt possible /\
      exists before after, cells s = before ++ (row, col) :: after /\
        (forall i j, (i, j) ∈ before -> cell board i j = 0%Z ->
           length possible < length (candidates s board i j) /\
           2 <= length (candidates s board i j)) /\
        (2 <= length possible ->
         forall i j, (i, j) ∈ after -> cell board i j = 0%Z ->
           length possible <= length (candidates s board i j)).
Proof.
  intros Hwc Hwf.
  destruct (find_best_empty_chosen s board Hwc Hwf) as (o & Hrun & Hnone & Hsome).
  exists o. split; [assumption|]. split; [assumption|].
  intros row col possible ->.
  destruct (Hsome _ eq_refl) as (Hposs & Hz & before & after & Hall & Hb & Ha).
  simpl in *.
  assert ((row, col) ∈ cells s) as [Hr Hc]%elem_of_cells.
  { rewrite Hall. apply elem_of_app. right. left. }
  split; [assumption|]. split; [assumption|]. split; [assumption|]. split.
  - intros num. rewrite Hposs, elem_of_candidates.
    rewrite is_valid_validb by assumption. split.
    + intros [? ->]. now split.
    + intros [? [= ->]]. now split.
  - split; [rewrite Hposs; apply candidates_sorted|].
    exists before, after. auto.
Qed.

(** The 4x4 board of the test cases. *)
Lemma find_best_empty_selects_witness :
  exists best_cell, find_best_empty s4 board4 = Ret best_cell /\
    (best_cell = None <->
     forall i j, i < 4 -> j < 4 -> cell board4 i j <> 0%Z) /\
    forall row col possible, best_cell = Some (row, col, possible) ->
      row < 4 /\ col < 4 /\ cell board4 row col = 0%Z /\
      (forall num, num ∈ possible <->
         (1 <= num <= 4)%Z /\ is_valid s4 board4 row col num = Ret true) /\
      StronglySorted Z.lt possible /\
      exists before after, cells s4 = before ++ (row, col) :: after /\
        (forall i j, (i, j) ∈ before -> cell board4 i j = 0%Z ->
           length possible < length (candidates s4 board4 i j) /\
           2 <= length (candidates s4 board4 i j)) /\
        (2 <= length possible ->
         forall i j, (i, j) ∈ after -> cell board4 i j = 0%Z ->
           length possible <= length (candidates s4 board4 i j)).
Proof.
  apply (find_best_empty_selects s4 board4).
  - reflexivity.
  - split; [reflexivity|]. repeat constructor.
Defined.

(** C6 as stated fails: the first row of this board holds 1, 1, 9, and
    [validate_board] reports the conflict of the 1 at (0,0), not the 9 at
    (0,2), which is out of range. *)
Lemma validate_board_counterexample :
  validate_board s4 bad4 = Ret (false, Conflict 1 0 0, bad4) /\
  cell bad4 0 2 = 9%Z /\ ~ (0 <= 9 <= Z.of_nat (size s4))%Z.
Proof. split; [reflexivity|]. split; [reflexivity|]. simpl. lia. Qed.

(** C6, as the code has it.  A board that is not N x N gets the dimension
    error, whatever it holds.  On an N x N board the cells are checked one
    by one in row-major order, at each cell the range of its value and
    then, when it is filled, its conflicts: the answer is the error of the
    first cell that has one, with the value and the address of that cell, a
    range error when the value is outside 0..N and a conflict otherwise;
    and the board is valid when no cell has one. *)
Theorem validate_board_first_violation s (board : grid) :
  well_configured s ->
  (~ wf s board ->
   validate_board s board = Ret (false, WrongDimensions (size s), board)) /\
  (wf s board ->
   (valid_board s board /\
    validate_board s board = Ret (true, ValidBoard, board)) \/
   exists before i j after, cells s = before ++ (i, j) :: after /\
     (forall i' j', (i', j') ∈ before -> cell_ok s board i' j') /\
     ((~ (0 <= cell board i j <= Z.of_nat (size s))%Z /\
       validate_board s board
       = Ret (false, ValueOutOfRange (cell board i j) i j (size s), board)) \/
      ((0 <= cell board i j <= Z.of_nat (size s))%Z /\
       cell board i j <> 0%Z /\
       (exists i' j', i' < size s /\ j' < size s /\ peer s i j i' j' /\
          cell board i' j' = cell board i j) /\
       validate_board s board
       = Ret (false, Conflict (cell board i j) i j, board)))).
Proof.
  intros Hwc. split.
  - intros Hnwf. unfold validate_board.
    destruct (bool_decide (length board <> size s) || _) eqn:Hdim;
      [reflexivity|].
    now apply dimensions_wf in Hdim.
  - intros Hwf. rewrite (validate_board_pure s Hwc board Hwf).
    destruct (first_some _ _) as [m|] eqn:Hfs.
    + right.
      apply first_some_Some in Hfs as (before & [i j] & after & Hall & Hm & Hb).
      simpl in Hm.
      assert (forall i' j', (i', j') ∈ before -> i' < size s /\ j' < size s)
        as Hin.
      { intros i' j' Hin. apply elem_of_cells. rewrite Hall.
        apply elem_of_app. now left. }
      assert ((i, j) ∈ cells s) as [Hi Hj]%elem_of_cells.
      { rewrite Hall. apply elem_of_app. right. left. }
      exists before, i, j, after. split; [assumption|]. split.
      * intros i' j' Hb'. destruct (Hin i' j' Hb') as [Hi' Hj'].
        apply (violation_None s Hwc); [assumption..|]. exact (Hb (i', j') Hb').
      * unfold violation in Hm.
        destruct (bool_decide (0 <= cell board i j)%Z) eqn:H0;
          [apply bool_decide_eq_true in H0|apply bool_decide_eq_false in H0];
          simpl in Hm.
        -- destruct (bool_decide (cell board i j <= Z.of_nat (size s))%Z) eqn:H1;
             [apply bool_decide_eq_true in H1|apply bool_decide_eq_false in H1];
             simpl in Hm.
           ++ destruct (bool_decide (cell board i j <> 0%Z)) eqn:Hz;
                [apply bool_decide_eq_true in Hz|discriminate].
              destruct (validb s board i j (cell board i j)) eqn:Hv;
                [discriminate|].
              simpl in Hm. injection Hm as <-. right.
              split; [lia|]. split; [assumption|]. split; [|reflexivity].
              now apply (validb_false s Hwc).
           ++ injection Hm as <-. left. split; [lia|reflexivity].
        -- injection Hm as <-. left. split; [lia|reflexivity].
    + left. split; [|reflexivity].
      apply (validate_board_valid s Hwc).
      rewrite (validate_board_pure s Hwc board Hwf). now rewrite Hfs.
Qed.

(** The board with two 1s and a 9 in its first row. *)
Lemma validate_board_first_violation_witness :
  (~ wf s4 bad4 ->
   validate_board s4 bad4 = Ret (false, WrongDimensions (size s4), bad4)) /\
  (wf s4 bad4 ->
   (valid_board s4 bad4 /\
    validate_board s4 bad4 = Ret (true, ValidBoard, bad4)) \/
   exists before i j after, cells s4 = before ++ (i, j) :: after /\
     (forall i' j', (i', j') ∈ before -> cell_ok s4 bad4 i' j') /\
     ((~ (0 <= cell bad4 i j <= Z.of_nat (size s4))%Z /\
       validate_board s4 bad4
       = Ret (false, ValueOutOfRange (cell bad4 i j) i j (size s4), bad4)) \/
      ((0 <= cell bad4 i j <= Z.of_nat (size s4))%Z /\
       cell bad4 i j <> 0%Z /\
       (exists i' j', i' < size s4 /\ j' < size s4 /\ peer s4 i j i' j' /\
          cell bad4 i' j' = cell bad4 i j) /\
       validate_board s4 bad4
       = Ret (false, Conflict (cell bad4 i j) i j, bad4)))).
Proof. apply (validate_board_first_violation s4 bad4). reflexivity. Defined.

(** C7.  Whenever [validate_board] returns, with an error or without, the
    board it leaves is the board it was given, and run again on that board
    it returns the same answer and leaves the same board; and for a solver
    whose box size squares to its size it returns on every board, of any
    dimensions and content. *)
Theorem validate_board_unchanged s (board : grid) :
  (forall r, validate_board s board = Ret r ->
     snd r = board /\ validate_board s (snd r) = Ret r) /\
  (well_configured s ->
   exists ok msg, validate_board s board = Ret (ok, msg, board)).
Proof.
  split.
  - intros r Hr. pose proof (validate_board_frame s board r Hr) as Hsame.
    split; [assumption|]. now rewrite Hsame.
  - intros Hwc.
    destruct (bool_decide (length board <> size s)
              || existsb (fun row => bool_decide (length row <> size s)) board)
      eqn:Hdim.
    + exists false, (WrongDimensions (size s)).
      unfold validate_board. now rewrite Hdim.
    + apply dimensions_wf in Hdim.
      rewrite (validate_board_pure s Hwc) by assumption.
      destruct (first_some _ _); eauto.
Qed.

(** The board with two 1s and a 9 in its first row comes back as it was,
    with the same answer the second time. *)
Lemma validate_board_unchanged_witness :
  (snd (false, Conflict 1 0 0, bad4) = bad4 /\
   validate_board s4 (snd (false, Conflict 1 0 0, bad4))
   = Ret (false, Conflict 1 0 0, bad4)) /\
  exists ok msg, validate_board s4 bad4 = Ret (ok, msg, bad4).
Proof.
  split.
  - apply (proj1 (validate_board_unchanged s4 bad4)
             (false, Conflict 1 0 0, bad4)).
    reflexivity.
  - apply (proj2 (validate_board_unchanged s4 bad4)). reflexivity.
Defined.

(** With size 5 the box size is 2 and the box scan of the last row runs off
    the board: [validate_board] raises instead of returning. *)
Example validate_board_size5 : validate_board (Solver 5 2) board5 = Raise IndexError.
Proof. reflexivity. Qed.

(** C8.  On a valid board, with a deadline that is never exceeded, the two
    strategies return the same answer, neither with the timeout flag:
    [True] when the board has a solution, [False] when it has none. *)
Theorem strategies_agree expired s (board : grid) fuel :
  well_configured s -> (forall k, expired k = false) ->
  valid_board s board -> size s * size s < fuel ->
  exists answer calls_mrv board_mrv calls_simple board_simple,
    measure_performance expired s fuel board true
    = Ret (answer, calls_mrv, false, board_mrv) /\
    measure_performance expired s fuel board false
    = Ret (answer, calls_simple, false, board_simple) /\
    (answer = true <-> solvable s board).
Proof.
  intros Hwc Hclock Hvalid Hfuel.
  destruct (measure_performance_decides expired s Hwc Hclock fuel board
              true Hvalid Hfuel) as (b1 & c1 & g1 & Hrun1 & Ht1 & Hf1).
  destruct (measure_performance_decides expired s Hwc Hclock fuel board
              false Hvalid Hfuel) as (b2 & c2 & g2 & Hrun2 & Ht2 & Hf2).
  assert (b1 = true <-> solvable s board) as Hiff1.
  { destruct b1.
    - split; [|reflexivity]. intros _. exists g1. now apply Ht1.
    - split; [discriminate|]. intros Hs. now destruct (Hf1 eq_refl). }
  assert (b2 = true <-> solvable s board) as Hiff2.
  { destruct b2.
    - split; [|reflexivity]. intros _. exists g2. now apply Ht2.
    - split; [discriminate|]. intros Hs. now destruct (Hf2 eq_refl). }
  assert (b2 = b1) as Heq.
  { destruct b1, b2; try reflexivity.
    - apply (proj2 Hiff2), (proj1 Hiff1). reflexivity.
    - symmetry. apply (proj2 Hiff1), (proj1 Hiff2). reflexivity. }
  subst b2. exists b1, c1, g1, c2, g2.
  split; [assumption|]. split; assumption.
Qed.

(** The 4x4 board without a solution: both strategies answer alike. *)
Lemma strategies_agree_witness :
  exists answer calls_mrv board_mrv calls_simple board_simple,
    measure_performance never s4 17 dead4 true
    = Ret (answer, calls_mrv, false, board_mrv) /\
    measure_performance never s4 17 dead4 false
    = Ret (answer, calls_simple, false, board_simple) /\
    (answer = true <-> solvable s4 dead4).
Proof.
  apply (strategies_agree never s4 dead4 17).
  - reflexivity.
  - reflexivity.
  - apply (validate_board_valid s4); reflexivity.
  - simpl. lia.
Defined.

(** C9.  On an N x N board of a solver whose box size squares to N, at an
    in-range cell [(row, col)], [is_valid] returns, and it returns [False]
    exactly when [num] is held by another cell of the same row, of the same
    column or of the same box; what the cell [(row, col)] itself holds plays
    no part, so a cell that holds the candidate value does not conflict with
    itself.  [is_valid] only reads the board: the model has no board among
    its results. *)
Theorem is_valid_spec s (board : grid) row col num :
  well_configured s -> wf s board -> row < size s -> col < size s ->
  exists ok, is_valid s board row col num = Ret ok /\
    (ok = false <->
     exists i j, i < size s /\ j < size s /\ (i, j) <> (row, col) /\
       (i = row \/ j = col \/
        (i / subgrid_size s = row / subgrid_size s /\
         j / subgrid_size s = col / subgrid_size s)) /\
       cell board i j = num) /\
    is_valid s (upd board row col num) row col num = Ret ok.
Proof.
  intros Hwc Hwf Hr Hc. exists (validb s board row col num).
  split; [now apply is_valid_validb|]. split.
  - rewrite (validb_false s Hwc board row col num Hr Hc). unfold peer.
    split; intros (i & j & H); exists i, j; tauto.
  - rewrite is_valid_validb by (try apply upd_wf; assumption).
    f_equal. now apply validb_upd_self.
Qed.

(** The 2 at (2,1) of the 4x4 board forbids a 2 at (0,1). *)
Lemma is_valid_spec_witness :
  exists ok, is_valid s4 board4 0 1 2%Z = Ret ok /\
    (ok = false <->
     exists i j, i < 4 /\ j < 4 /\ (i, j) <> (0, 1) /\
       (i = 0 \/ j = 1 \/ (i / 2 = 0 / 2 /\ j / 2 = 1 / 2)) /\
       cell board4 i j = 2%Z) /\
    is_valid s4 (upd board4 0 1 2%Z) 0 1 2%Z = Ret ok.
Proof.
  apply (is_valid_spec s4 board4 0 1 2%Z).
  - reflexivity.
  - split; [reflexivity|]. repeat constructor.
  - simpl. lia.
  - simpl. lia.
Defined.

(** C10.  When the box size B squares to the board size N, on an N x N board
    and for [row], [col] below N, the two ranges of the box scan of
    [is_valid] stay below N, and [is_valid] raises nothing, whatever the
    value: no cell outside the board is read. *)
Theorem is_valid_in_bounds s (board : grid) row col :
  well_configured s -> wf s board -> row < size s -> col < size s ->
  let start_row := row / subgrid_size s * subgrid_size s in
  let start_col := col / subgrid_size s * subgrid_size s in
  (forall i, i ∈ range start_row (start_row + subgrid_size s) -> i < size s) /\
  (forall j, j ∈ range start_col (start_col + subgrid_size s) -> j < size s) /\
  forall num, exists ok, is_valid s board row col num = Ret ok.
Proof.
  intros Hwc Hwf Hr Hc. cbv zeta.
  pose proof (box_bound s Hwc row Hr). pose proof (box_bound s Hwc col Hc).
  split; [|split].
  - intros i Hi%elem_of_range. lia.
  - intros j Hj%elem_of_range. lia.
  - intros num. exists (validb s board row col num).
    now apply is_valid_validb.
Qed.

(** The last cell of the 4x4 board: its box is rows 2..3, columns 2..3. *)
Lemma is_valid_in_bounds_witness :
  (forall i, i ∈ range 2 4 -> i < 4) /\
  (forall j, j ∈ range 2 4 -> j < 4) /\
  forall num, exists ok, is_valid s4 board4 3 3 num = Ret ok.
Proof.
  apply (is_valid_in_bounds s4 board4 3 3).
  - reflexivity.
  - split; [reflexivity|]. repeat constructor.
  - simpl. lia.
  - simpl. lia.
Defined.

(** * Further properties *)

(** ** The order of the scan *)

Lemma row_cells_sorted a b n :
  StronglySorted scanned_before (map (pair a) (seq b n)).
Proof.
  revert b. induction n as [|n IH]; intros b; simpl; constructor.
  - apply IH.
  - apply Forall_forall. intros x Hx.
    apply list_elem_of_fmap in Hx as (j & -> & Hj%elem_of_seq).
    right. simpl. lia.
Qed.

Lemma cells_sorted s : StronglySorted scanned_before (cells s).
Proof.
  unfold cells, range. generalize (size s - 0) as n. generalize 0 at 2 as a.
  intros a n. generalize n at 2 as m. intros m. revert a.
  induction m as [|m IH]; intros a; simpl; [constructor|].
  apply StronglySorted_app_2; [|apply row_cells_sorted|apply IH].
  intros x1 x2 Hx1 Hx2.
  apply list_elem_of_fmap in Hx1 as (j & -> & _).
  apply list_elem_of_In, in_flat_map in Hx2 as (i & Hi & Hx2).
  apply in_map_iff in Hx2 as (j' & <- & _).
  apply list_elem_of_In, elem_of_seq in Hi. left. simpl. lia.
Qed.

(** The cells that come before a cell of the scan are the cells scanned
    before it. *)
Lemma cells_before s before r c after i j :
  cells s = before ++ (r, c) :: after -> i < size s -> j < size s ->
  scanned_before (i, j) (r, c) -> (i, j) ∈ before.
Proof.
  intros Hall Hi Hj Hlt. pose proof (cells_sorted s) as Hs.
  rewrite Hall in Hs.
  assert ((i, j) ∈ cells s) as Hin by now apply elem_of_cells.
  rewrite Hall in Hin. apply elem_of_app in Hin as [Hin|Hin]; [assumption|].
  apply StronglySorted_app_1_r, StronglySorted_cons in Hs as [Hafter _].
  unfold scanned_before in Hlt. simpl in Hlt.
  apply elem_of_cons in Hin as [[= -> ->]|Hin]; [lia|].
  pose proof (proj1 (Forall_forall _ _) Hafter (i, j) Hin) as Hgt.
  unfold scanned_before in Hgt. simpl in Hgt. lia.
Qed.

(** ** The selectors and the validator *)

(** What [find_empty] returns on a well-formed board. *)
Lemma find_empty_scan s (board : grid) :
  wf s board ->
  exists empty, find_empty s board = Ret empty /\
    (empty = None <->
     forall i j, i < size s -> j < size s -> cell board i j <> 0%Z) /\
    forall r c, empty = Some (r, c) ->
      r < size s /\ c < size s /\ cell board r c = 0%Z /\
      forall i j, i < size s -> j < size s ->
        scanned_before (i, j) (r, c) -> cell board i j <> 0%Z.
Proof.
  intros Hwf. rewrite (find_empty_pure s) by assumption.
  eexists. split; [reflexivity|].
  destruct (first_some _ _) as [[r0 c0]|] eqn:E.
  - apply first_some_Some in E as (b & [i0 j0] & a & Hall & Hx & Hb).
    unfold empty_at in Hx. simpl in Hx.
    destruct (bool_decide (cell board i0 j0 = 0%Z)) eqn:Hz; [|discriminate].
    apply bool_decide_eq_true in Hz. injection Hx as -> ->.
    assert ((r0, c0) ∈ cells s) as [Hr Hc]%elem_of_cells.
    { rewrite Hall. apply elem_of_app. right. left. }
    split.
    + split; [discriminate|]. intros Hnz. now destruct (Hnz r0 c0 Hr Hc).
    + intros r c [= <- <-]. split; [assumption|]. split; [assumption|].
      split; [assumption|]. intros i j Hi Hj Hlt Hz'.
      pose proof (Hb (i, j) (cells_before s b r0 c0 a i j Hall Hi Hj Hlt)) as Hn.
      unfold empty_at in Hn. simpl in Hn.
      rewrite (bool_decide_eq_true_2 _ Hz') in Hn. discriminate.
  - split; [|discriminate]. split; [|reflexivity]. intros _ i j Hi Hj Hz.
    pose proof (proj1 (first_some_None _ _) E (i, j)) as Hn.
    unfold empty_at in Hn. simpl in Hn.
    rewrite (bool_decide_eq_true_2 _ Hz) in Hn.
    discriminate Hn. now apply elem_of_cells.
Qed.

(** X1.  On an N x N board [find_empty] returns [None] exactly when no cell
    is empty, and otherwise the first empty cell of the row-major scan: the
    cell it returns holds 0 and every cell scanned before it is filled. *)
Theorem find_empty_first s (board : grid) :
  wf s board ->
  exists empty, find_empty s board = Ret empty /\
    (empty = None <->
     forall i j, i < size s -> j < size s -> cell board i j <> 0%Z) /\
    forall r c, empty = Some (r, c) ->
      r < size s /\ c < size s /\ cell board r c = 0%Z /\
      forall i j, i < size s -> j < size s ->
        scanned_before (i, j) (r, c) -> cell board i j <> 0%Z.
Proof. apply find_empty_scan. Qed.

(** The first empty cell of the 4x4 board of the test cases is (0,1). *)
Lemma find_empty_first_witness :
  exists empty, find_empty s4 board4 = Ret empty /\
    (empty = None <->
     forall i j, i < 4 -> j < 4 -> cell board4 i j <> 0%Z) /\
    forall r c, empty = Some (r, c) ->
      r < 4 /\ c < 4 /\ cell board4 r c = 0%Z /\
      forall i j, i < 4 -> j < 4 ->
        scanned_before (i, j) (r, c) -> cell board4 i j <> 0%Z.
Proof.
  apply (find_empty_first s4 board4).
  split; [reflexivity|]. repeat constructor.
Defined.

(** X2.  For a solver whose box size squares to its size, [validate_board]
    answers (True, "Valid board") exactly on the N x N boards whose values
    are all in 0..N and on which two different cells of one row, one column
    or one box never hold the same value unless that value is 0. *)
Theorem validate_board_accepts s (board : grid) :
  well_configured s ->
  validate_board s board = Ret (true, ValidBoard, board) <->
  wf s board /\
  (forall i j, i < size s -> j < size s ->
     (0 <= cell board i j <= Z.of_nat (size s))%Z) /\
  (forall i j i' j', i < size s -> j < size s -> i' < size s -> j' < size s ->
     peer s i j i' j' -> cell board i j = cell board i' j' ->
     cell board i j = 0%Z).
Proof.
  intros Hwc. rewrite (validate_board_valid s Hwc). unfold valid_board.
  split; intros (Hwf & Hrange & Hcons); (split; [assumption|]);
    (split; [assumption|]).
  - intros i j i' j' Hi Hj Hi' Hj' Hp He.
    destruct (decide (cell board i j = 0%Z)) as [|Hnz]; [assumption|].
    now destruct (Hcons i j Hi Hj Hnz i' j' Hi' Hj' Hp).
  - intros r c Hr Hc Hnz i j Hi Hj Hp He.
    apply Hnz. apply (Hcons r c i j); auto.
Qed.

(** The 4x4 board of the test cases is accepted. *)
Lemma validate_board_accepts_witness :
  validate_board s4 board4 = Ret (true, ValidBoard, board4) <->
  wf s4 board4 /\
  (forall i j, i < 4 -> j < 4 -> (0 <= cell board4 i j <= 4)%Z) /\
  (forall i j i' j', i < 4 -> j < 4 -> i' < 4 -> j' < 4 ->
     peer s4 i j i' j' -> cell board4 i j = cell board4 i' j' ->
     cell board4 i j = 0%Z).
Proof. apply (validate_board_accepts s4 board4). reflexivity. Defined.

(** ** Placing a value and checking again *)

(** X3.  After [board[r][c] = v], [is_valid] refuses [v] at every peer of
    [(r, c)]: at every other cell of its row, its column and its box. *)
Theorem is_valid_rejects_placed s (board : grid) r c v i j :
  well_configured s -> wf s board ->
  r < size s -> c < size s -> i < size s -> j < size s ->
  peer s i j r c ->
  exists board', set_cell board r c v = Ret board' /\
    is_valid s board' i j v = Ret false.
Proof.
  intros Hwc Hwf Hr Hc Hi Hj Hp. exists (upd board r c v).
  split; [now apply (set_cell_wf s)|].
  rewrite is_valid_validb by (try apply upd_wf; assumption). f_equal.
  apply validb_false; [assumption..|]. exists r, c.
  split; [assumption|]. split; [assumption|]. split; [assumption|].
  now apply (cell_upd_eq s).
Qed.

(** A 3 placed at (0,1) of the 4x4 board rules out 3 at (1,0), a cell of
    the same box. *)
Lemma is_valid_rejects_placed_witness :
  exists board', set_cell board4 0 1 3%Z = Ret board' /\
    is_valid s4 board' 1 0 3%Z = Ret false.
Proof.
  apply (is_valid_rejects_placed s4 board4 0 1 3%Z 1 0);
    try reflexivity; try (simpl; lia).
  - split; [reflexivity|]. repeat constructor.
  - split; [discriminate|]. right. right. split; reflexivity.
Defined.

(** X4.  Writing [v] into cell [(r, c)] does not change the answer of
    [is_valid] for value [w] at cell [(i, j)] when [(r, c)] is not a peer of
    [(i, j)], or when [w] is neither [v] nor the value the cell held. *)
Theorem is_valid_unaffected s (board : grid) r c v i j w :
  well_configured s -> wf s board ->
  r < size s -> c < size s -> i < size s -> j < size s ->
  ~ peer s i j r c \/ (w <> v /\ w <> cell board r c) ->
  exists board', set_cell board r c v = Ret board' /\
    is_valid s board' i j w = is_valid s board i j w.
Proof.
  intros Hwc Hwf Hr Hc Hi Hj Hfar. exists (upd board r c v).
  split; [now apply (set_cell_wf s)|].
  rewrite !is_valid_validb by (try apply upd_wf; assumption). f_equal.
  assert (validb s (upd board r c v) i j w = true
          <-> validb s board i j w = true) as Hiff.
  { rewrite !validb_true by assumption. split; intros H i' j' Hi' Hj' Hp.
    - destruct (decide ((i', j') = (r, c))) as [[= -> ->]|Hne].
      + destruct Hfar as [Hnp|[_ Hw]]; [contradiction|congruence].
      + rewrite <- (cell_upd_ne s board r c v) by assumption. now apply H.
    - destruct (decide ((i', j') = (r, c))) as [[= -> ->]|Hne].
      + rewrite (cell_upd_eq s) by assumption.
        destruct Hfar as [Hnp|[Hw _]]; [contradiction|congruence].
      + rewrite (cell_upd_ne s) by assumption. now apply H. }
  destruct (validb s (upd board r c v) i j w), (validb s board i j w);
    try reflexivity.
  - symmetry. now apply Hiff.
  - now apply Hiff.
Qed.

(** A 3 placed at (0,1) of the 4x4 board leaves the answers at (2,2)
    alone: the two cells share no row, column or box. *)
Lemma is_valid_unaffected_witness :
  exists board', set_cell board4 0 1 3%Z = Ret board' /\
    is_valid s4 board' 2 2 3%Z = is_valid s4 board4 2 2 3%Z.
Proof.
  apply (is_valid_unaffected s4 board4 0 1 3%Z 2 2 3%Z);
    try reflexivity; try (simpl; lia).
  - split; [reflexivity|]. repeat constructor.
  - left. intros [_ [H|[H|[H _]]]]; discriminate H.
Defined.

(** ** The box scan and the edge of the board *)

Lemma for_none_raise {A} (xs : list A) y ys (cond : A -> result bool) e :
  (forall x, x ∈ xs -> cond x = Ret false) -> cond y = Raise e ->
  for_none (xs ++ y :: ys) cond = Raise e.
Proof.
  induction xs as [|x xs IH]; intros Hxs Hy; simpl.
  - now rewrite Hy.
  - rewrite (Hxs x) by left. simpl. apply IH; [|assumption].
    intros z Hz. apply Hxs. now right.
Qed.

Lemma existsb_never {A} (xs : list A) : existsb (fun _ => false) xs = false.
Proof. induction xs; simpl; auto. Qed.

Lemma absent_check s (g : grid) num :
  forallb (fun p => negb (bool_decide (cell g (fst p) (snd p) = num)))
    (cells s) = true ->
  forall i j, i < size s -> j < size s -> cell g i j <> num.
Proof.
  intros H i j Hi Hj.
  pose proof (proj1 (forallb_forall _ _) H (i, j)) as Hp. simpl in Hp.
  apply (bool_decide_eq_false_1 (cell g i j = num)).
  apply negb_true_iff, Hp. now apply list_elem_of_In, elem_of_cells.
Qed.

(** [is_valid] on a well-formed board whose box scan stays on the board. *)
Lemma is_valid_within s (g : grid) r c v :
  wf s g -> r < size s -> c < size s -> subgrid_size s <> 0 ->
  r / subgrid_size s * subgrid_size s + subgrid_size s <= size s ->
  c / subgrid_size s * subgrid_size s + subgrid_size s <= size s ->
  is_valid s g r c v = Ret (validb s g r c v).
Proof.
  intros Hwf Hr Hc Hb Hbr Hbc. unfold is_valid, validb.
  rewrite (for_none_pure _ _
    (fun j => bool_decide (cell g r j = v) && bool_decide (j <> c))).
  2:{ intros j Hj%elem_of_range. rewrite (get_cell_wf s) by (assumption || lia).
      reflexivity. }
  simpl. destruct (existsb _ (range 0 (size s))); simpl; [reflexivity|].
  rewrite (for_none_pure _ _
    (fun i => bool_decide (cell g i c = v) && bool_decide (i <> r))).
  2:{ intros i Hi%elem_of_range. rewrite (get_cell_wf s) by (assumption || lia).
      reflexivity. }
  simpl. destruct (existsb _ (range 0 (size s))); simpl; [reflexivity|].
  destruct (decide (subgrid_size s = 0)) as [H0|_]; [contradiction|].
  rewrite (for_none_pure _ _
    (fun i => existsb (fun j => bool_decide (cell g i j = v)
                                && bool_decide ((i, j) <> (r, c)))
       (range (c / subgrid_size s * subgrid_size s)
              (c / subgrid_size s * subgrid_size s + subgrid_size s)))).
  2:{ intros i Hi%elem_of_range.
      rewrite (for_none_pure _ _
        (fun j => bool_decide (cell g i j = v)
                  && bool_decide ((i, j) <> (r, c)))).
      - simpl. now rewrite negb_involutive.
      - intros j Hj%elem_of_range.
        rewrite (get_cell_wf s) by (assumption || lia). reflexivity. }
  reflexivity.
Qed.

(** X5.  When the box size divides the board size, whether or not it
    squares to it, [is_valid] raises nothing on an N x N board at an
    in-range cell: the box scan stays on the board. *)
Theorem is_valid_box_fits s (board : grid) row col num :
  0 < subgrid_size s -> size s mod subgrid_size s = 0 ->
  wf s board -> row < size s -> col < size s ->
  row / subgrid_size s * subgrid_size s + subgrid_size s <= size s /\
  col / subgrid_size s * subgrid_size s + subgrid_size s <= size s /\
  exists ok, is_valid s board row col num = Ret ok.
Proof.
  intros Hb Hdiv Hwf Hr Hc.
  assert (forall x, x < size s ->
            x / subgrid_size s * subgrid_size s + subgrid_size s <= size s)
    as Hfit.
  { intros x Hx.
    pose proof (proj2 (Nat.Div0.div_exact (size s) (subgrid_size s)) Hdiv)
      as Hex.
    assert (x / subgrid_size s < size s / subgrid_size s) as Hq.
    { apply Nat.Div0.div_lt_upper_bound. lia. }
    nia. }
  split; [now apply Hfit|]. split; [now apply Hfit|].
  exists (validb s board row col num).
  apply is_valid_within; auto. lia.
Qed.

(** Size 6 with box size 2: the last cell of the board. *)
Lemma is_valid_box_fits_witness :
  5 / 2 * 2 + 2 <= 6 /\ 5 / 2 * 2 + 2 <= 6 /\
  exists ok, is_valid (Solver 6 2) board6 5 5 2%Z = Ret ok.
Proof.
  apply (is_valid_box_fits (Solver 6 2) board6 5 5 2%Z).
  - simpl. lia.
  - reflexivity.
  - split; [reflexivity|]. repeat constructor.
  - simpl. lia.
  - simpl. lia.
Defined.

(** The box scan of a cell whose box runs past the last column. *)
Lemma is_valid_past_columns s (board : grid) row col num :
  0 < subgrid_size s -> wf s board -> row < size s -> col < size s ->
  size s < col / subgrid_size s * subgrid_size s + subgrid_size s ->
  (forall i j, i < size s -> j < size s -> cell board i j <> num) ->
  is_valid s board row col num = Raise IndexError.
Proof.
  intros Hb Hwf Hr Hc Hhi Habs.
  set (B := subgrid_size s) in *. set (N := size s) in *.
  assert (forall i j, i < N -> j < N ->
            bool_decide (cell board i j = num) = false) as Hbd.
  { intros i j Hi Hj. apply bool_decide_eq_false. now apply Habs. }
  assert (row / B * B <= row /\ col / B * B <= col) as [Hsr Hsc].
  { pose proof (Nat.div_mod_eq row B). pose proof (Nat.div_mod_eq col B). lia. }
  unfold is_valid. fold B N.
  rewrite (for_none_pure _ _ (fun _ => false)).
  2:{ intros j Hj%elem_of_range. rewrite (get_cell_wf s) by (assumption || lia).
      simpl. rewrite Hbd by lia. reflexivity. }
  rewrite existsb_never. simpl.
  rewrite (for_none_pure _ _ (fun _ => false)).
  2:{ intros i Hi%elem_of_range. rewrite (get_cell_wf s) by (assumption || lia).
      simpl. rewrite Hbd by lia. reflexivity. }
  rewrite existsb_never. simpl.
  destruct (decide (B = 0)) as [H0|_]; [lia|].
  set (sr := row / B * B) in *. set (sc := col / B * B) in *.
  assert (range sr (sr + B) = sr :: range (sr + 1) (sr + B)) as ->.
  { unfold range. replace (sr + B - sr) with (S (sr + B - (sr + 1))) by lia.
    simpl. now rewrite Nat.add_1_r. }
  assert (range sc (sc + B) = range sc N ++ N :: range (N + 1) (sc + B)) as ->.
  { unfold range. replace (sc + B - sc) with ((N - sc) + S (sc + B - (N + 1)))
      by lia.
    rewrite seq_app. simpl. replace (sc + (N - sc)) with N by lia.
    now rewrite Nat.add_1_r. }
  simpl. rewrite (for_none_raise _ _ _ _ IndexError); [reflexivity| |].
  - intros j Hj%elem_of_range.
    rewrite (get_cell_wf s) by (assumption || lia). simpl.
    rewrite Hbd by lia. reflexivity.
  - destruct (wf_row s board sr Hwf ltac:(lia)) as (r & Hrow & Hlen).
    unfold get_cell. rewrite Hrow.
    rewrite (lookup_ge_None_2 r N) by (fold N in Hlen; lia). reflexivity.
Qed.

(** X6.  When the box size does not divide the board size, the box of the
    last cell runs off the board: for a value that no cell holds, [is_valid]
    at the last cell of an N x N board raises [IndexError]. *)
Theorem is_valid_off_board s (board : grid) num :
  0 < subgrid_size s -> size s mod subgrid_size s <> 0 ->
  wf s board ->
  (forall i j, i < size s -> j < size s -> cell board i j <> num) ->
  is_valid s board (size s - 1) (size s - 1) num = Raise IndexError.
Proof.
  intros Hb Hdiv Hwf Habs.
  assert (0 < size s) as Hn.
  { destruct (size s); [|lia]. now rewrite Nat.Div0.mod_0_l in Hdiv. }
  apply is_valid_past_columns; try assumption; try lia.
  pose proof (Nat.div_mod_eq (size s - 1) (subgrid_size s)) as Hdm.
  pose proof (Nat.mod_upper_bound (size s - 1) (subgrid_size s)) as Hm.
  assert ((size s - 1) / subgrid_size s * subgrid_size s + subgrid_size s
          <> size s) as Hne.
  { intros He. apply Hdiv. rewrite <- He.
    replace ((size s - 1) / subgrid_size s * subgrid_size s + subgrid_size s)
      with (((size s - 1) / subgrid_size s + 1) * subgrid_size s) by lia.
    apply Nat.Div0.mod_mul. }
  lia.
Qed.

(** Size 5 with box size 2: no cell of the board holds 2, and asking for
    it at the last cell raises. *)
Lemma is_valid_off_board_witness :
  is_valid (Solver 5 2) board5 (5 - 1) (5 - 1) 2%Z = Raise IndexError.
Proof.
  apply (is_valid_off_board (Solver 5 2) board5 2%Z).
  - simpl. lia.
  - simpl. lia.
  - split; [reflexivity|]. repeat constructor.
  - apply absent_check. reflexivity.
Defined.

(** ** What a [True] answer is worth, whatever the clock *)

Section Sound.
Variable expired : nat -> bool.
Variable s : solver.
Hypothesis Hwc : well_configured s.
Implicit Types g : grid.

Lemma try_values_sound
    (solve : telemetry -> grid -> result (bool * telemetry * grid))
    row col nums t g b t' g' :
  (forall t0 g0 b0 t1 g1, wf s g0 -> solve t0 g0 = Ret (b0, t1, g1) ->
     (b0 = true -> completion s g0 g1) /\ (b0 = false -> g1 = g0)) ->
  wf s g -> row < size s -> col < size s -> cell g row col = 0%Z ->
  (forall v, v ∈ nums -> (1 <= v <= Z.of_nat (size s))%Z) ->
  try_values s solve row col nums t g = Ret (b, t', g') ->
  (b = true -> completion s g g') /\ (b = false -> g' = g).
Proof.
  intros Hsolve Hwf Hr Hc Hz Hnums. unfold try_values.
  destruct (for_loop _ _ _) as [cl| |] eqn:Hloop; simpl; try discriminate.
  apply (for_loop_ind (fun st => snd st = g)
           (fun st => completion s g (snd st))) in Hloop; [|reflexivity|].
  - destruct cl as [st|st]; intros [= <- <- <-]; split;
      try discriminate; auto.
  - clear Hloop. intros num [t0 g0] c Hin Hst. simpl in Hst. subst g0.
    unfold try_step. simpl.
    rewrite is_valid_validb by assumption. simpl.
    destruct (validb s g row col num) eqn:Hok; [|now intros [= <-]].
    rewrite (set_cell_wf s) by assumption. simpl.
    destruct (solve t0 (upd g row col num)) as [[[b1 t1] g1]| |] eqn:Hrec;
      simpl; try discriminate.
    apply Hsolve in Hrec as [Htrue Hfalse]; [|now apply upd_wf].
    destruct b1.
    + intros [= <-]. simpl.
      apply (completion_unfill s Hwc g g1 row col num); auto.
    + rewrite (Hfalse eq_refl).
      rewrite (set_cell_wf s) by (try apply upd_wf; assumption). simpl.
      pose proof (upd_restore s g row col num Hwf Hr Hc) as Hback.
      rewrite Hz in Hback. rewrite Hback. now intros [= <-].
Qed.

Lemma solve_simple_sound fuel : forall t g b t' g',
  wf s g -> solve_simple expired s fuel t g = Ret (b, t', g') ->
  (b = true -> completion s g g') /\ (b = false -> g' = g).
Proof.
  induction fuel as [|fuel IH]; intros t g b t' g' Hwf; simpl;
    [discriminate|].
  destruct (expired (clock_reads t)).
  { intros [= <- <- <-]. split; [discriminate|reflexivity]. }
  destruct (find_empty_spec s g Hwf) as (o & -> & Ho). simpl.
  destruct o as [[r c]|].
  - destruct Ho as (Hr & Hc & Hz).
    apply try_values_sound; try assumption. intros v. apply elem_of_values.
  - intros [= <- <- <-]. split; [|discriminate]. intros _.
    now apply completion_full.
Qed.

Lemma solve_with_mrv_sound fuel : forall t g b t' g',
  wf s g -> solve_with_mrv expired s fuel t g = Ret (b, t', g') ->
  (b = true -> completion s g g') /\ (b = false -> g' = g).
Proof.
  induction fuel as [|fuel IH]; intros t g b t' g' Hwf; simpl;
    [discriminate|].
  destruct (expired (clock_reads t)).
  { intros [= <- <- <-]. split; [discriminate|reflexivity]. }
  destruct (find_best_empty_chosen s g Hwc Hwf) as (o & -> & Hnone & Hsome).
  simpl. destruct o as [[[r c] poss]|].
  - destruct (Hsome _ eq_refl) as (Hposs & Hz & bf & af & Hall & _).
    simpl in *.
    assert ((r, c) ∈ cells s) as [Hr Hc]%elem_of_cells.
    { rewrite Hall. apply elem_of_app. right. left. }
    apply try_values_sound; try assumption.
    intros v Hv. subst poss. now apply elem_of_candidates in Hv.
  - intros [= <- <- <-]. split; [|discriminate]. intros _.
    apply completion_full; [assumption|]. now apply Hnone.
Qed.

(** A board that [validate_board] accepts is returned with the text
    "Valid board", and is a valid board. *)
Lemma validate_board_true g m gv :
  validate_board s g = Ret (true, m, gv) ->
  m = ValidBoard /\ gv = g /\ valid_board s g.
Proof.
  intros Hv. assert (wf s g) as Hwf.
  { apply dimensions_wf. unfold validate_board in Hv.
    destruct (_ || _); [discriminate|reflexivity]. }
  pose proof Hv as Hv'.
  rewrite (validate_board_pure s Hwc) in Hv' by assumption.
  destruct (first_some _ _) eqn:Hfs; [discriminate|].
  injection Hv' as <- <-. split; [reflexivity|]. split; [reflexivity|].
  now apply (validate_board_valid s Hwc).
Qed.

End Sound.

(** X7.  Whatever the clock and the fuel, when [measure_performance]
    answers [True] the board it was given is a valid board, and the board
    it hands back keeps the given cells, has every cell filled with a value
    of 1..N, no value twice in a row, a column or a box, and passes
    [validate_board]. *)
Theorem answer_true_sound expired s fuel (board : grid) use_mrv calls tle solved :
  well_configured s ->
  measure_performance expired s fuel board use_mrv
  = Ret (true, calls, tle, solved) ->
  valid_board s board /\ extends s board solved /\ solution s solved /\
  validate_board s solved = Ret (true, ValidBoard, solved).
Proof.
  intros Hwc. unfold measure_performance.
  destruct (validate_board s board) as [[[ok m] gv]| |] eqn:Hv; simpl;
    try discriminate.
  destruct ok; simpl; [|discriminate].
  apply (validate_board_true s Hwc) in Hv as (-> & -> & Hvalid).
  pose proof Hvalid as (Hwf & Hrange & Hcons).
  destruct (if use_mrv then _ else _) as [[[b t'] gs]| |] eqn:Hrun; simpl;
    try discriminate.
  destruct b; simpl; [|discriminate].
  assert (completion s board gs) as Hcomp.
  { destruct use_mrv.
    - now apply (solve_with_mrv_sound expired s Hwc fuel _ _ _ _ _ Hwf Hrun).
    - now apply (solve_simple_sound expired s Hwc fuel _ _ _ _ _ Hwf Hrun). }
  rewrite (copy_back_wf s) by (assumption || apply Hcomp). simpl.
  intros [= _ _ <-].
  apply (completion_solution s Hwc board gs Hrange Hcons) in Hcomp
    as [Hsol Hext].
  split; [assumption|]. split; [assumption|]. split; [assumption|].
  apply (validate_board_valid s Hwc). now apply solution_valid.
Qed.

(** The 4x4 board of the test cases under a clock that expires at its
    fourteenth reading: the MRV search needs thirteen. *)
Lemma answer_true_sound_witness :
  measure_performance (expires_after 13) s4 17 board4 true
  = Ret (true, 13, false, solved4) /\
  valid_board s4 board4 /\ extends s4 board4 solved4 /\ solution s4 solved4 /\
  validate_board s4 solved4 = Ret (true, ValidBoard, solved4).
Proof.
  split; [reflexivity|].
  apply (answer_true_sound (expires_after 13) s4 17 board4 true 13 false
           solved4); reflexivity.
Defined.

(** X8.  On any N x N board, valid or not, a call of [solve_with_mrv] or
    [solve_simple] that returns [True] leaves an N x N board on which the
    cells that were filled hold what they held, and every cell that was
    empty holds a value of 1..N that [is_valid] accepts. *)
Theorem solve_true_fills expired s use_mrv fuel t (board : grid) t' board' :
  well_configured s -> wf s board ->
  solve expired s use_mrv fuel t board = Ret (true, t', board') ->
  wf s board' /\
  forall i j, i < size s -> j < size s ->
    (cell board i j <> 0%Z -> cell board' i j = cell board i j) /\
    (cell board i j = 0%Z ->
     (1 <= cell board' i j <= Z.of_nat (size s))%Z /\
     is_valid s board' i j (cell board' i j) = Ret true).
Proof.
  intros Hwc Hwf Hrun.
  assert (completion s board board') as (Hwf' & Hext & Hfill).
  { destruct use_mrv; simpl in Hrun.
    - now apply (solve_with_mrv_sound expired s Hwc fuel _ _ _ _ _ Hwf Hrun).
    - now apply (solve_simple_sound expired s Hwc fuel _ _ _ _ _ Hwf Hrun). }
  split; [assumption|]. intros i j Hi Hj. split; [now apply Hext|].
  intros Hz. destruct (Hfill i j Hi Hj Hz) as [Hv Hok].
  split; [assumption|]. rewrite is_valid_validb by assumption.
  now rewrite Hok.
Qed.

(** The board with two 9s in its first row, which the validator refuses:
    the search fills the fourteen empty cells around them. *)
Lemma solve_true_fills_witness :
  solve never s4 false 17 (Telemetry 0 0 false) odd4
  = Ret (true, Telemetry 15 15 false, odd4_filled) /\
  validate_board s4 odd4 = Ret (false, ValueOutOfRange 9 0 0 4, odd4) /\
  wf s4 odd4_filled /\
  forall i j, i < 4 -> j < 4 ->
    (cell odd4 i j <> 0%Z -> cell odd4_filled i j = cell odd4 i j) /\
    (cell odd4 i j = 0%Z ->
     (1 <= cell odd4_filled i j <= 4)%Z /\
     is_valid s4 odd4_filled i j (cell odd4_filled i j) = Ret true).
Proof.
  split; [reflexivity|]. split; [reflexivity|].
  apply (solve_true_fills never s4 false 17 (Telemetry 0 0 false) odd4
           (Telemetry 15 15 false) odd4_filled); [reflexivity| |reflexivity].
  split; [reflexivity|]. repeat constructor.
Defined.

(** ** The counters and the timeout flag *)

Section Counters.
Variable expired : nat -> bool.
Variable s : solver.

Lemma readings_app t t1 t2 :
  clock_reads t <= clock_reads t1 -> clock_reads t1 <= clock_reads t2 ->
  readings t t2 = readings t t1 ++ readings t1 t2.
Proof.
  intros H1 H2. unfold readings.
  replace (clock_reads t2 - clock_reads t)
    with ((clock_reads t1 - clock_reads t) + (clock_reads t2 - clock_reads t1))
    by lia.
  rewrite seq_app. do 2 f_equal. lia.
Qed.

Lemma accounted_refl t : accounted expired t t.
Proof.
  unfold accounted, readings. rewrite Nat.sub_diag. simpl.
  split; [lia|]. split; [lia|]. now rewrite orb_false_r.
Qed.

Lemma accounted_trans t t1 t2 :
  accounted expired t t1 -> accounted expired t1 t2 -> accounted expired t t2.
Proof.
  intros (H1 & Hc1 & Hf1) (H2 & Hc2 & Hf2). unfold accounted.
  rewrite (readings_app t t1 t2) by assumption.
  rewrite List.filter_app, !length_app, existsb_app.
  split; [lia|]. split; [lia|]. rewrite Hf2, Hf1. now rewrite orb_assoc.
Qed.

Lemma accounted_call t : expired (clock_reads t) = false ->
  accounted expired t (count_call (tick t)).
Proof.
  intros He. unfold accounted, readings. simpl.
  replace (S (clock_reads t) - clock_reads t) with 1 by lia. simpl.
  rewrite He. simpl. split; [lia|]. split; [lia|].
  now rewrite orb_false_r.
Qed.

Lemma accounted_timeout t : expired (clock_reads t) = true ->
  accounted expired t (set_exceeded (tick t)).
Proof.
  intros He. unfold accounted, readings. simpl.
  replace (S (clock_reads t) - clock_reads t) with 1 by lia. simpl.
  rewrite He. simpl. split; [lia|]. split; [lia|].
  now rewrite orb_true_r.
Qed.

Lemma try_values_accounted
    (solve : telemetry -> grid -> result (bool * telemetry * grid))
    row col nums t (g : grid) b t' g' :
  (forall t0 g0 b0 t1 g1, solve t0 g0 = Ret (b0, t1, g1) ->
     accounted expired t0 t1) ->
  try_values s solve row col nums t g = Ret (b, t', g') ->
  accounted expired t t'.
Proof.
  intros Hsolve. unfold try_values.
  destruct (for_loop _ _ _) as [cl| |] eqn:Hloop; simpl; try discriminate.
  apply (for_loop_ind (fun st => accounted expired t (fst st))
           (fun st => accounted expired t (fst st))) in Hloop.
  - destruct cl as [st|st]; now intros [= _ <- _].
  - apply accounted_refl.
  - clear Hloop. intros num [t0 g0] c _ Hst. simpl in Hst.
    unfold try_step. simpl.
    destruct (is_valid s g0 row col num) as [ok| |]; simpl; try discriminate.
    destruct ok; [|now intros [= <-]].
    destruct (set_cell g0 row col num) as [g1| |]; simpl; try discriminate.
    destruct (solve t0 g1) as [[[b1 t1] g2]| |] eqn:Hrec; simpl;
      try discriminate.
    apply Hsolve in Hrec.
    destruct b1.
    + intros [= <-]. simpl. now apply (accounted_trans t t0 t1).
    + destruct (set_cell g2 row col 0%Z) as [g3| |]; simpl; try discriminate.
      intros [= <-]. simpl. now apply (accounted_trans t t0 t1).
Qed.

Lemma solve_simple_accounted fuel : forall t (g : grid) b t' g',
  solve_simple expired s fuel t g = Ret (b, t', g') ->
  clock_reads t < clock_reads t' /\ accounted expired t t'.
Proof.
  induction fuel as [|fuel IH]; intros t g b t' g'; simpl; [discriminate|].
  destruct (expired (clock_reads t)) eqn:He.
  { intros [= _ <- _]. split; [simpl; lia|now apply accounted_timeout]. }
  pose proof (accounted_call t He) as Hcall.
  destruct (find_empty s g) as [[[r c]|]| |]; simpl; try discriminate.
  - intros Hrun. apply try_values_accounted in Hrun.
    + split; [destruct Hrun as [Hle _]; simpl in Hle; lia|].
      now apply (accounted_trans t (count_call (tick t)) t').
    + intros t0 g0 b0 t1 g1 H0. now apply IH in H0.
  - intros [= _ <- _]. split; [simpl; lia|assumption].
Qed.

Lemma solve_with_mrv_accounted fuel : forall t (g : grid) b t' g',
  solve_with_mrv expired s fuel t g = Ret (b, t', g') ->
  clock_reads t < clock_reads t' /\ accounted expired t t'.
Proof.
  induction fuel as [|fuel IH]; intros t g b t' g'; simpl; [discriminate|].
  destruct (expired (clock_reads t)) eqn:He.
  { intros [= _ <- _]. split; [simpl; lia|now apply accounted_timeout]. }
  pose proof (accounted_call t He) as Hcall.
  destruct (find_best_empty s g) as [[[[r c] poss]|]| |]; simpl;
    try discriminate.
  - intros Hrun. apply try_values_accounted in Hrun.
    + split; [destruct Hrun as [Hle _]; simpl in Hle; lia|].
      now apply (accounted_trans t (count_call (tick t)) t').
    + intros t0 g0 b0 t1 g1 H0. now apply IH in H0.
  - intros [= _ <- _]. split; [simpl; lia|assumption].
Qed.

(** The reading of the clock made last before a [True] answer did not find
    the deadline exceeded. *)
Lemma try_values_last_reading
    (solve : telemetry -> grid -> result (bool * telemetry * grid))
    row col nums t (g : grid) t' g' :
  (forall t0 g0 t1 g1, solve t0 g0 = Ret (true, t1, g1) ->
     expired (clock_reads t1 - 1) = false) ->
  try_values s solve row col nums t g = Ret (true, t', g') ->
  expired (clock_reads t' - 1) = false.
Proof.
  intros Hsolve. unfold try_values.
  destruct (for_loop _ _ _) as [cl| |] eqn:Hloop; simpl; try discriminate.
  apply (for_loop_ind (fun _ => True)
           (fun st => expired (clock_reads (fst st) - 1) = false)) in Hloop;
    [|exact I|].
  - destruct cl as [st|st]; [discriminate|]. now intros [= <- _].
  - clear Hloop. intros num [t0 g0] c _ _. unfold try_step. simpl.
    destruct (is_valid s g0 row col num) as [ok| |]; simpl; try discriminate.
    destruct ok; [|now intros [= <-]].
    destruct (set_cell g0 row col num) as [g1| |]; simpl; try discriminate.
    destruct (solve t0 g1) as [[[b1 t1] g2]| |] eqn:Hrec; simpl;
      try discriminate.
    destruct b1.
    + intros [= <-]. simpl. now apply Hsolve in Hrec.
    + destruct (set_cell g2 row col 0%Z) as [g3| |]; simpl; try discriminate.
      now intros [= <-].
Qed.

Lemma solve_last_reading use_mrv fuel : forall t (g : grid) t' g',
  solve expired s use_mrv fuel t g = Ret (true, t', g') ->
  expired (clock_reads t' - 1) = false.
Proof.
  unfold solve. destruct use_mrv.
  - induction fuel as [|fuel IH]; intros t g t' g'; simpl; [discriminate|].
    destruct (expired (clock_reads t)) eqn:He; [discriminate|].
    destruct (find_best_empty s g) as [[[[r c] poss]|]| |]; simpl;
      try discriminate.
    + apply try_values_last_reading. exact IH.
    + intros [= <- _]. simpl. now rewrite Nat.sub_0_r.
  - induction fuel as [|fuel IH]; intros t g t' g'; simpl; [discriminate|].
    destruct (expired (clock_reads t)) eqn:He; [discriminate|].
    destruct (find_empty s g) as [[[r c]|]| |]; simpl; try discriminate.
    + apply try_values_last_reading. exact IH.
    + intros [= <- _]. simpl. now rewrite Nat.sub_0_r.
Qed.

End Counters.

(** X9.  In every call of [solve_with_mrv] or [solve_simple] that returns,
    at any depth, the clock is read at least once; [recursive_calls] grows
    by the number of readings that did not find the deadline exceeded; and
    the timeout flag afterwards is the flag before, or set when some
    reading found the deadline exceeded.  So the count that
    [measure_performance] returns is the number of deadline checks that
    passed, and the flag it leaves tells whether one failed. *)
Theorem search_accounted expired s use_mrv fuel (board : grid) :
  (forall t b t' board',
     solve expired s use_mrv fuel t board = Ret (b, t', board') ->
     clock_reads t < clock_reads t' /\
     recursive_calls t' + length (List.filter expired (readings t t'))
     = recursive_calls t + length (readings t t') /\
     time_limit_exceeded t'
     = time_limit_exceeded t || existsb expired (readings t t')) /\
  (forall b calls tle board',
     measure_performance expired s fuel board use_mrv
     = Ret (b, calls, tle, board') ->
     exists n, calls + length (List.filter expired (seq 0 n)) = n /\
       tle = existsb expired (seq 0 n)).
Proof.
  assert (forall t (g : grid) b t' g',
            solve expired s use_mrv fuel t g = Ret (b, t', g') ->
            clock_reads t < clock_reads t' /\ accounted expired t t') as Hsolve.
  { intros t g b t' g'. unfold solve. destruct use_mrv.
    - apply solve_with_mrv_accounted.
    - apply solve_simple_accounted. }
  split.
  - intros t b t' board' Hrun.
    destruct (Hsolve _ _ _ _ _ Hrun) as (Hlt & _ & Hc & Hf). auto.
  - intros b calls tle board'. unfold measure_performance.
    destruct (validate_board s board) as [[[ok m] gv]| |]; simpl;
      try discriminate.
    destruct ok; simpl.
    + fold (solve expired s use_mrv fuel (Telemetry 0 0 false) gv).
      destruct (solve expired s use_mrv fuel (Telemetry 0 0 false) gv)
        as [[[b1 t'] gs]| |] eqn:Hrun; simpl; try discriminate.
      destruct (Hsolve _ _ _ _ _ Hrun) as (_ & _ & Hc & Hf).
      unfold readings in Hc, Hf. simpl in Hc, Hf.
      rewrite Nat.sub_0_r, length_seq in Hc. rewrite Nat.sub_0_r in Hf.
      assert (exists n, recursive_calls t'
                        + length (List.filter expired (seq 0 n)) = n /\
                time_limit_exceeded t' = existsb expired (seq 0 n)) as Hn
        by (exists (clock_reads t'); auto).
      destruct b1; simpl.
      * destruct (copy_back s board gs); simpl; try discriminate.
        now intros [= _ <- <- _].
      * now intros [= _ <- <- _].
    + intros [= _ <- <- _]. exists 0. split; reflexivity.
Qed.

(** The simple search on the 4x4 board with the deadline exceeded from the
    second reading on: three readings, one call counted. *)
Lemma search_accounted_witness :
  (clock_reads (Telemetry 0 0 false) < clock_reads (Telemetry 1 3 true) /\
   recursive_calls (Telemetry 1 3 true)
   + length (List.filter (expires_after 1)
               (readings (Telemetry 0 0 false) (Telemetry 1 3 true)))
   = recursive_calls (Telemetry 0 0 false)
     + length (readings (Telemetry 0 0 false) (Telemetry 1 3 true)) /\
   time_limit_exceeded (Telemetry 1 3 true)
   = time_limit_exceeded (Telemetry 0 0 false)
     || existsb (expires_after 1)
          (readings (Telemetry 0 0 false) (Telemetry 1 3 true))) /\
  exists n, 1 + length (List.filter (expires_after 1) (seq 0 n)) = n /\
    true = existsb (expires_after 1) (seq 0 n).
Proof.
  split.
  - apply (proj1 (search_accounted (expires_after 1) s4 false 17 board4)
             (Telemetry 0 0 false) false (Telemetry 1 3 true) board4).
    reflexivity.
  - apply (proj2 (search_accounted (expires_after 1) s4 false 17 board4)
             false 1 true board4).
    reflexivity.
Defined.

(** X10.  With a clock that does not run backwards, a search that returns
    [True] has met no exceeded deadline: it leaves the timeout flag as it
    found it; and [measure_performance] never answers [True] with the
    timeout flag set, so a run that leaves the flag set answered [False]
    and left the caller's board alone. *)
Theorem timed_out_is_false expired s use_mrv fuel (board : grid) :
  monotone_clock expired ->
  (forall t t' board',
     solve expired s use_mrv fuel t board = Ret (true, t', board') ->
     (forall k, k < clock_reads t' -> expired k = false) /\
     time_limit_exceeded t' = time_limit_exceeded t) /\
  (forall b calls board',
     measure_performance expired s fuel board use_mrv
     = Ret (b, calls, true, board') ->
     b = false /\ board' = board).
Proof.
  intros Hmono.
  assert (forall t (g : grid) t' g',
            solve expired s use_mrv fuel t g = Ret (true, t', g') ->
            (forall k, k < clock_reads t' -> expired k = false) /\
            time_limit_exceeded t' = time_limit_exceeded t) as Hsolve.
  { intros t g t' g' Hrun.
    pose proof (solve_last_reading expired s use_mrv fuel t g t' g' Hrun)
      as Hlast.
    assert (forall k, k < clock_reads t' -> expired k = false) as Hnone.
    { intros k Hk. destruct (expired k) eqn:He; [|reflexivity].
      rewrite (Hmono k (clock_reads t' - 1)) in Hlast by (lia || assumption).
      discriminate. }
    split; [assumption|].
    assert (accounted expired t t') as (Hle & _ & Hf).
    { unfold solve in Hrun. destruct use_mrv.
      - now apply solve_with_mrv_accounted in Hrun.
      - now apply solve_simple_accounted in Hrun. }
    rewrite Hf.
    destruct (existsb expired (readings t t')) eqn:Hex;
      [|now rewrite orb_false_r].
    apply existsb_elem_of in Hex as (k & Hk & He).
    unfold readings in Hk. apply elem_of_seq in Hk.
    rewrite Hnone in He by lia. discriminate. }
  split; [intros t t' board'; apply Hsolve|].
  intros b calls board' Hrun. destruct b.
  - exfalso. revert Hrun. unfold measure_performance.
    destruct (validate_board s board) as [[[ok m] gv]| |]; simpl;
      try discriminate.
    destruct ok; simpl; [|discriminate].
    fold (solve expired s use_mrv fuel (Telemetry 0 0 false) gv).
    destruct (solve expired s use_mrv fuel (Telemetry 0 0 false) gv)
      as [[[b1 t'] gs]| |] eqn:Hsol; simpl; try discriminate.
    destruct b1; simpl; [|discriminate].
    destruct (Hsolve _ _ _ _ Hsol) as [_ Hflag]. rewrite Hflag. simpl.
    destruct (copy_back s board gs); simpl; discriminate.
  - split; [reflexivity|].
    exact (measure_performance_false expired s fuel board use_mrv calls true
             board' Hrun).
Qed.

Lemma expires_after_monotone d : monotone_clock (expires_after d).
Proof.
  intros k k' Hk. unfold expires_after.
  intros H%Nat.leb_le. apply Nat.leb_le. lia.
Qed.

(** The MRV search on the 4x4 board with a deadline that is met: the flag
    stays down; and the simple search with the deadline exceeded from the
    second reading on: the flag is set and the answer is [False]. *)
Lemma timed_out_is_false_witness :
  ((forall k, k < clock_reads (Telemetry 13 13 false) ->
      expires_after 13 k = false) /\
   time_limit_exceeded (Telemetry 13 13 false)
   = time_limit_exceeded (Telemetry 0 0 false)) /\
  (false = false /\ board4 = board4).
Proof.
  split.
  - apply (proj1 (timed_out_is_false (expires_after 13) s4 true 17 board4
                    (expires_after_monotone 13))
             (Telemetry 0 0 false) (Telemetry 13 13 false) solved4).
    reflexivity.
  - apply (proj2 (timed_out_is_false (expires_after 1) s4 false 17 board4
                    (expires_after_monotone 1))
             false 1 board4).
    reflexivity.
Defined.

(** With a clock that runs backwards the flag and the answer can disagree:
    the deadline is found exceeded at the third reading only, in a branch
    that the simple search gives up anyway, and the run answers [True] with
    the timeout flag set. *)
Example solved_with_flag_set :
  measure_performance hiccup s4 17 board4 false = Ret (true, 15, true, solved4).
Proof. reflexivity. Qed.

(** ** Boards the search is not started on, or is finished with at once *)

(** X11.  On a board that is not valid (wrong dimensions, a value outside
    0..N, or a conflict) [measure_performance] answers [False] with 0 calls
    and the timeout flag down, and leaves the board alone, whatever the
    strategy and the clock: the search is not started. *)
Theorem invalid_board_refused expired s fuel (board : grid) use_mrv :
  well_configured s -> ~ valid_board s board ->
  measure_performance expired s fuel board use_mrv
  = Ret (false, 0, false, board).
Proof.
  intros Hwc Hinvalid. unfold measure_performance.
  assert (exists m, validate_board s board = Ret (false, m, board))
    as (m & ->); [|reflexivity].
  destruct (bool_decide (length board <> size s)
            || existsb (fun row => bool_decide (length row <> size s)) board)
    eqn:Hdim.
  - exists (WrongDimensions (size s)). unfold validate_board. now rewrite Hdim.
  - apply dimensions_wf in Hdim.
    destruct (validate_board s board) as [[[ok m] gv]| |] eqn:Hv;
      rewrite (validate_board_pure s Hwc) in Hv by assumption;
      try discriminate.
    destruct (first_some _ _) as [m'|] eqn:Hfs.
    + injection Hv as <- <- <-. eauto.
    + exfalso. apply Hinvalid. apply (validate_board_valid s Hwc).
      rewrite (validate_board_pure s Hwc) by assumption. now rewrite Hfs.
Qed.

(** The board with two 1s and a 9 in its first row, no fuel at all. *)
Lemma invalid_board_refused_witness :
  measure_performance never s4 0 bad4 true = Ret (false, 0, false, bad4).
Proof.
  apply (invalid_board_refused never s4 0 bad4 true); [reflexivity|].
  intros H. apply (validate_board_valid s4) in H; [|reflexivity].
  discriminate H.
Defined.

(** X12.  On a valid board without an empty cell, when the deadline is not
    exceeded at the first reading of the clock, [measure_performance]
    answers [True] after exactly one call, with either strategy, and hands
    the same board back. *)
Theorem complete_board_returned expired s fuel (board : grid) use_mrv :
  well_configured s -> expired 0 = false -> valid_board s board ->
  (forall i j, i < size s -> j < size s -> cell board i j <> 0%Z) ->
  0 < fuel ->
  measure_performance expired s fuel board use_mrv
  = Ret (true, 1, false, board).
Proof.
  intros Hwc He Hvalid Hfull Hfuel. pose proof Hvalid as (Hwf & _).
  unfold measure_performance.
  rewrite (proj2 (validate_board_valid s Hwc board) Hvalid). simpl.
  destruct fuel as [|n]; [lia|].
  assert ((if use_mrv
           then solve_with_mrv expired s (S n) (Telemetry 0 0 false) board
           else solve_simple expired s (S n) (Telemetry 0 0 false) board)
          = Ret (true, Telemetry 1 1 false, board)) as ->.
  { destruct use_mrv; simpl; rewrite He.
    - destruct (find_best_empty_chosen s board Hwc Hwf)
        as (o & -> & Hnone & _).
      rewrite (proj2 Hnone Hfull). reflexivity.
    - destruct (find_empty_scan s board Hwf) as (o & -> & Hnone & _).
      rewrite (proj2 Hnone Hfull). reflexivity. }
  simpl. rewrite (copy_back_wf s) by assumption. reflexivity.
Qed.

(** The solved 4x4 board. *)
Lemma complete_board_returned_witness :
  measure_performance never s4 1 solved4 true = Ret (true, 1, false, solved4).
Proof.
  apply (complete_board_returned never s4 1 solved4 true).
  - reflexivity.
  - reflexivity.
  - apply (validate_board_valid s4); reflexivity.
  - apply absent_check. reflexivity.
  - lia.
Defined.

(** X13.  On a valid board, when the deadline is already exceeded at the
    first reading of the clock, [measure_performance] answers [False] with
    0 calls and the timeout flag set, and leaves the board alone. *)
Theorem deadline_at_start expired s fuel (board : grid) use_mrv :
  well_configured s -> expired 0 = true -> valid_board s board -> 0 < fuel ->
  measure_performance expired s fuel board use_mrv
  = Ret (false, 0, true, board).
Proof.
  intros Hwc He Hvalid Hfuel. unfold measure_performance.
  rewrite (proj2 (validate_board_valid s Hwc board) Hvalid). simpl.
  destruct fuel as [|n]; [lia|].
  destruct use_mrv; simpl; rewrite He; reflexivity.
Qed.

(** The 4x4 board of the test cases with no time at all. *)
Lemma deadline_at_start_witness :
  measure_performance (expires_after 0) s4 17 board4 true
  = Ret (false, 0, true, board4).
Proof.
  apply (deadline_at_start (expires_after 0) s4 17 board4 true).
  - reflexivity.
  - reflexivity.
  - apply (validate_board_valid s4); reflexivity.
  - lia.
Defined.

(** ** Which solution the simple search finds *)

Lemma sorted_after {A} (R : A -> A -> Prop) pre v post x :
  StronglySorted R (pre ++ v :: post) -> x ∈ post -> R v x.
Proof.
  intros Hs Hx.
  apply StronglySorted_app_1_r, StronglySorted_cons in Hs as [Hpost _].
  exact (proj1 (Forall_forall _ _) Hpost x Hx).
Qed.

Lemma values_sorted s : StronglySorted Z.lt (values s).
Proof. apply of_nat_seq_sorted. Qed.

Section Least.
Variable expired : nat -> bool.
Variable s : solver.
Hypothesis Hwc : well_configured s.
Hypothesis Hclock : forall k, expired k = false.
Implicit Types g sol : grid.

Lemma try_loop_least solve n row col g :
  decides s solve n ->
  (forall t0 g0 t1 g1, wf s g0 -> zeros s g0 <= n ->
     solve t0 g0 = Ret (true, t1, g1) ->
     forall sol, completion s g0 sol -> lex_le s g1 sol) ->
  wf s g -> row < size s -> col < size s -> cell g row col = 0%Z ->
  zeros s g <= S n ->
  (forall i j, i < size s -> j < size s ->
     scanned_before (i, j) (row, col) -> cell g i j <> 0%Z) ->
  forall nums, StronglySorted Z.lt nums ->
  (forall v, v ∈ nums -> (1 <= v <= Z.of_nat (size s))%Z) ->
  forall t st,
    for_loop nums (t, g) (try_step s solve row col) = Ret (Break st) ->
    forall sol, completion s g sol -> cell sol row col ∈ nums ->
      lex_le s (snd st) sol.
Proof.
  intros Hdec Hleast Hwf Hr Hc Hz Hn Hfirst nums.
  induction nums as [|num nums IH]; intros Hsorted Hnums t st; simpl;
    [discriminate|].
  apply StronglySorted_cons in Hsorted as [Hlt Hsorted'].
  assert (forall v, v ∈ nums -> (1 <= v <= Z.of_nat (size s))%Z) as Hnums'
    by (intros v Hv; apply Hnums; now right).
  assert (1 <= num <= Z.of_nat (size s))%Z as Hnum by (apply Hnums; left).
  specialize (IH Hsorted' Hnums').
  unfold try_step at 1. simpl.
  rewrite is_valid_validb by assumption. simpl.
  destruct (validb s g row col num) eqn:Hok.
  - rewrite (set_cell_wf s) by assumption. simpl.
    assert (wf s (upd g row col num)) as Hwfu by now apply upd_wf.
    assert (zeros s (upd g row col num) <= n) as Hzu.
    { pose proof (zeros_upd s g row col num Hwf Hr Hc Hz). lia. }
    destruct (Hdec t (upd g row col num) Hwfu Hzu)
      as (b & t' & g' & Hrec & _ & Hb1 & Hb0).
    rewrite Hrec. simpl. destruct b.
    + intros [= <-] sol Hcomp Hin. simpl.
      pose proof (Hb1 eq_refl) as (Hwf' & Hext' & _).
      assert (cell g' row col = num) as Hg'.
      { rewrite (Hext' row col) by
          (rewrite ?(cell_upd_eq s); assumption || lia).
        now apply (cell_upd_eq s). }
      apply elem_of_cons in Hin as [He|Hin].
      * apply (Hleast t (upd g row col num) t' g' Hwfu Hzu Hrec).
        rewrite <- He. now apply completion_fill.
      * right. exists row, col. split; [assumption|]. split; [assumption|].
        split.
        -- intros i j Hi Hj Hbefore.
           pose proof (Hfirst i j Hi Hj Hbefore) as Hnz.
           assert ((i, j) <> (row, col)) as Hne by congruence.
           destruct Hcomp as (_ & Hext & _).
           rewrite (Hext i j) by assumption.
           rewrite (Hext' i j) by (rewrite ?(cell_upd_ne s); assumption).
           now apply (cell_upd_ne s).
        -- rewrite Hg'. exact (proj1 (Forall_forall _ _) Hlt _ Hin).
    + destruct (Hb0 eq_refl) as [-> Hno].
      rewrite (set_cell_wf s) by assumption. simpl.
      pose proof (upd_restore s g row col num Hwf Hr Hc) as Hback.
      rewrite Hz in Hback. rewrite Hback.
      intros Hloop sol Hcomp Hin. apply elem_of_cons in Hin as [He|Hin].
      * destruct (Hno sol). rewrite <- He. now apply completion_fill.
      * now apply (IH t' st Hloop sol).
  - simpl. intros Hloop sol Hcomp Hin. apply elem_of_cons in Hin as [He|Hin].
    + pose proof (completion_valid s Hwc g sol row col Hr Hc Hcomp Hz).
      congruence.
    + now apply (IH t st Hloop sol).
Qed.

Lemma solve_simple_least n : forall t g t' g',
  wf s g -> zeros s g <= n ->
  solve_simple expired s (S n) t g = Ret (true, t', g') ->
  forall sol, completion s g sol -> lex_le s g' sol.
Proof.
  induction n as [|n IH]; intros t g t' g' Hwf Hn;
    change (solve_simple expired s (S ?f) t g)
      with (if expired (clock_reads t)
            then Ret (false, set_exceeded (tick t), g)
            else
              let t := count_call (tick t) in
              let* empty := find_empty s g in
              match empty with
              | None => Ret (true, t, g)
              | Some (row, col) =>
                  try_values s (solve_simple expired s f) row col
                    (values s) t g
              end);
    rewrite Hclock; cbv zeta;
    destruct (find_empty_scan s g Hwf) as ([[r c]|] & -> & Hnone & Ho);
    cbn [rbind].
  - destruct (Ho r c eq_refl) as (Hr & Hc & Hz & _).
    pose proof (zeros_positive s g r c Hr Hc Hz). lia.
  - intros [= _ <-] sol (_ & Hext & _). left. intros i j Hi Hj.
    symmetry. apply Hext; try assumption. now apply (proj1 Hnone eq_refl).
  - destruct (Ho r c eq_refl) as (Hr & Hc & Hz & Hfirst).
    unfold try_values.
    destruct (for_loop _ _ _) as [[st|st]| |] eqn:Hloop; simpl;
      try discriminate.
    intros [= _ <-] sol Hcomp.
    apply (try_loop_least _ n r c g (solve_simple_decides expired s Hwc Hclock n)
             IH Hwf Hr Hc Hz Hn Hfirst (values s) (values_sorted s)
             (fun v => proj1 (elem_of_values s v)) _ st Hloop sol Hcomp).
    apply elem_of_values. now apply Hcomp.
  - intros [= _ <-] sol (_ & Hext & _). left. intros i j Hi Hj.
    symmetry. apply Hext; try assumption. now apply (proj1 Hnone eq_refl).
Qed.

End Least.

(** X14.  With a deadline that is never exceeded, the board that simple
    backtracking hands back is the least solution of the given board in the
    order of its scan: against any other solution that keeps the given
    cells, it holds the smaller value at the first cell, row by row, where
    the two differ. *)
Theorem simple_search_least expired s fuel (board : grid) calls tle solved :
  well_configured s -> (forall k, expired k = false) ->
  size s * size s < fuel ->
  measure_performance expired s fuel board false
  = Ret (true, calls, tle, solved) ->
  forall sol, solution s sol -> extends s board sol -> lex_le s solved sol.
Proof.
  intros Hwc Hclock Hfuel. unfold measure_performance.
  destruct (validate_board s board) as [[[ok m] gv]| |] eqn:Hv; simpl;
    try discriminate.
  destruct ok; simpl; [|discriminate].
  apply (validate_board_true s Hwc) in Hv as (-> & -> & Hvalid).
  pose proof Hvalid as (Hwf & Hrange & Hcons).
  destruct fuel as [|n]; [lia|].
  destruct (solve_simple expired s (S n) (Telemetry 0 0 false) board)
    as [[[b t'] gs]| |] eqn:Hrun; cbn [rbind fst snd]; try discriminate.
  destruct b; cbn [fst snd]; [|discriminate].
  assert (completion s board gs) as Hcomp
    by now apply (solve_simple_sound expired s Hwc (S n) _ _ _ _ _ Hwf Hrun).
  rewrite (copy_back_wf s) by (assumption || apply Hcomp). simpl.
  intros [= _ _ <-] sol Hsol Hext.
  pose proof (zeros_bound s board) as Hz.
  apply (solve_simple_least expired s Hwc Hclock n _ board t' gs Hwf
           ltac:(lia) Hrun).
  now apply completion_solution.
Qed.

(** The valid board with a single 1 in its last cell: the solution the MRV
    search finds is above the one the simple search finds. *)
Lemma simple_search_least_witness :
  lex_le s4 corner4_simple corner4_mrv.
Proof.
  apply (simple_search_least never s4 17 corner4 16 false corner4_simple).
  - reflexivity.
  - reflexivity.
  - simpl. lia.
  - reflexivity.
  - apply solution_check; reflexivity.
  - apply extends_check. reflexivity.
Defined.

(** The two strategies agree on the answer, not on the board, when the
    given board has several solutions. *)
Example strategies_differ :
  measure_performance never s4 17 corner4 false
  = Ret (true, 16, false, corner4_simple) /\
  measure_performance never s4 17 corner4 true
  = Ret (true, 16, false, corner4_mrv).
Proof. split; reflexivity. Qed.

(** ** The answer on every well-formed board *)

Lemma solvable_valid s (g : grid) :
  wf s g -> solvable s g -> valid_board s g.
Proof.
  intros Hwf (sol & (Hwfs & Hfull & Hcons) & Hext).
  split; [assumption|]. split.
  - intros i j Hi Hj. destruct (decide (cell g i j = 0%Z)) as [->|Hnz]; [lia|].
    rewrite <- (Hext i j) by assumption. specialize (Hfull i j Hi Hj). lia.
  - intros r c Hr Hc Hnz i j Hi Hj Hp.
    destruct (decide (cell g i j = 0%Z)) as [Hz|Hnz']; [congruence|].
    rewrite <- (Hext i j), <- (Hext r c) by assumption.
    apply Hcons; try assumption. rewrite (Hext r c) by assumption.
    assumption.
Qed.

Lemma answer_decides expired s fuel (g : grid) use_mrv :
  well_configured s -> (forall k, expired k = false) ->
  wf s g -> size s * size s < fuel ->
  exists b calls g',
    measure_performance expired s fuel g use_mrv = Ret (b, calls, false, g') /\
    (b = true <-> solvable s g).
Proof.
  intros Hwc Hclock Hwf Hfuel.
  destruct (first_some (fun p => violation s g (fst p) (snd p)) (cells s))
    as [m|] eqn:Hfs.
  - exists false, 0, g. split.
    + unfold measure_performance.
      rewrite (validate_board_pure s Hwc) by assumption. now rewrite Hfs.
    + split; [discriminate|]. intros Hsolv.
      apply (solvable_valid s g Hwf), (validate_board_valid s Hwc) in Hsolv.
      rewrite (validate_board_pure s Hwc) in Hsolv by assumption.
      rewrite Hfs in Hsolv. discriminate.
  - assert (valid_board s g) as Hvalid.
    { apply (validate_board_valid s Hwc).
      rewrite (validate_board_pure s Hwc) by assumption. now rewrite Hfs. }
    destruct (measure_performance_decides expired s Hwc Hclock fuel g
                use_mrv Hvalid Hfuel) as (b & calls & g' & Hrun & Hb1 & Hb0).
    exists b, calls, g'. split; [assumption|]. destruct b.
    + split; [|reflexivity]. intros _. exists g'. now apply Hb1.
    + split; [discriminate|]. intros Hs. now destruct (Hb0 eq_refl).
Qed.

(** X15.  With a deadline that is never exceeded, on every N x N board
    [measure_performance] returns without the timeout flag, and it answers
    [True] exactly when some solved board keeps the filled cells of the
    given one; on a board that is not valid, or has no solution, it
    answers [False]. *)
Theorem answer_iff_solvable expired s fuel (board : grid) use_mrv :
  well_configured s -> (forall k, expired k = false) ->
  wf s board -> size s * size s < fuel ->
  exists answer calls board',
    measure_performance expired s fuel board use_mrv
    = Ret (answer, calls, false, board') /\
    (answer = true <-> solvable s board).
Proof. apply answer_decides. Qed.

(** The board with two 9s in its first row: not valid, so no solution. *)
Lemma answer_iff_solvable_witness :
  exists answer calls board',
    measure_performance never s4 17 odd4 false
    = Ret (answer, calls, false, board') /\
    (answer = true <-> solvable s4 odd4).
Proof.
  apply (answer_iff_solvable never s4 17 odd4 false).
  - reflexivity.
  - reflexivity.
  - split; [reflexivity|]. repeat constructor.
  - simpl. lia.
Defined.

(** A solution is the only one when, at every empty cell, the search
    refuses the board with any other value written there. *)
Lemma unique_check s fuel (g sol : grid) :
  well_configured s -> size s * size s < fuel -> wf s g ->
  solution s sol -> extends s g sol ->
  forallb (fun p =>
    negb (bool_decide (cell g (fst p) (snd p) = 0%Z))
    || forallb (fun v =>
         bool_decide (v = cell sol (fst p) (snd p))
         || match measure_performance never s fuel
                    (upd g (fst p) (snd p) v) true with
            | Ret (false, _, _, _) => true
            | _ => false
            end) (values s)) (cells s) = true ->
  forall sol', solution s sol' -> extends s g sol' -> sol' = sol.
Proof.
  intros Hwc Hfuel Hwf Hsol Hext Hcheck sol' Hsol' Hext'.
  apply (grid_ext s); [apply Hsol'|apply Hsol|]. intros i j Hi Hj.
  destruct (decide (cell g i j = 0%Z)) as [Hz|Hnz];
    [|now rewrite (Hext i j), (Hext' i j)].
  pose proof (proj1 (forallb_forall _ _) Hcheck (i, j)
                (proj1 (list_elem_of_In _ _)
                   (proj2 (elem_of_cells s i j) (conj Hi Hj)))) as Hp.
  simpl in Hp. rewrite (bool_decide_eq_true_2 _ Hz) in Hp. simpl in Hp.
  assert (cell sol' i j ∈ values s) as Hin
    by (apply elem_of_values; now apply Hsol').
  pose proof (proj1 (forallb_forall _ _) Hp _
                (proj1 (list_elem_of_In _ _) Hin)) as Hv.
  apply orb_true_iff in Hv as [Hv|Hv]; [now apply bool_decide_eq_true in Hv|].
  exfalso.
  destruct (answer_decides never s fuel (upd g i j (cell sol' i j)) true Hwc
              (fun _ => eq_refl) (upd_wf s g i j _ Hwf) Hfuel)
    as (b & calls & g' & Hrun & Hiff).
  rewrite Hrun in Hv. destruct b; [discriminate|].
  assert (false = true) as Habs; [|discriminate].
  apply Hiff. exists sol'. split; [assumption|].
  intros i' j' Hi' Hj'. rewrite (cell_upd s) by assumption.
  destruct (decide ((i', j') = (i, j))) as [[= -> ->]|Hne]; [reflexivity|].
  now apply Hext'.
Qed.

(** X16.  With a deadline that is never exceeded, on a valid board that
    has exactly one solution both strategies answer [True] and hand back
    that solution. *)
Theorem unique_solution_found expired s fuel (board : grid) use_mrv sol :
  well_configured s -> (forall k, expired k = false) ->
  valid_board s board -> solution s sol -> extends s board sol ->
  (forall sol', solution s sol' -> extends s board sol' -> sol' = sol) ->
  size s * size s < fuel ->
  exists calls,
    measure_performance expired s fuel board use_mrv
    = Ret (true, calls, false, sol).
Proof.
  intros Hwc Hclock Hvalid Hsol Hext Huniq Hfuel.
  destruct (measure_performance_decides expired s Hwc Hclock fuel board
              use_mrv Hvalid Hfuel) as (b & calls & g' & Hrun & Hb1 & Hb0).
  destruct b.
  - destruct (Hb1 eq_refl) as [Hsol' Hext'].
    rewrite (Huniq g' Hsol' Hext') in Hrun. eauto.
  - destruct (Hb0 eq_refl) as [_ Hno]. destruct Hno. now exists sol.
Qed.

(** The 4x4 board of the test cases has one solution only, and the MRV
    search finds it. *)
Lemma unique_solution_found_witness :
  exists calls,
    measure_performance never s4 17 board4 true
    = Ret (true, calls, false, solved4).
Proof.
  assert (solution s4 solved4) as Hsol by (apply solution_check; reflexivity).
  assert (extends s4 board4 solved4) as Hext
    by (apply extends_check; reflexivity).
  apply (unique_solution_found never s4 17 board4 true solved4).
  - reflexivity.
  - reflexivity.
  - apply (validate_board_valid s4); reflexivity.
  - exact Hsol.
  - exact Hext.
  - apply (unique_check s4 17 board4 solved4); try assumption.
    + reflexivity.
    + simpl. lia.
    + split; [reflexivity|]. repeat constructor.
    + vm_compute. reflexivity.
  - simpl. lia.
Defined.
